(** * generate_ssl_debug_helpers.py: a shallow embedding and its properties

    The script reads a C header, strips its comments, walks its conditional
    directives with a stack, runs entity extractors (enum definitions and
    groups of signature-algorithm macros) over the region of each closed
    block and writes one translation function per entity.

    Text is a list of characters with code points below 256; the character
    classes below are Python's ([\s], [\w], [str.lower], [str.splitlines])
    restricted to that range.  Offsets are natural numbers. *)

From Stdlib Require Import Ascii String List Arith Lia Bool Sorted Permutation.
Import ListNotations.

Set Implicit Arguments.

(** ** Text *)

Definition text := list ascii.

Definition lit (s : string) : text := list_ascii_of_string s.
Arguments lit s%_string.

Definition nl : ascii := "010"%char.
Definition cr : ascii := "013"%char.
Definition tab : ascii := "009"%char.
Definition dquote : ascii := "034"%char.
Definition squote : ascii := "039"%char.
Definition backslash : ascii := "092"%char.

Definition code (c : ascii) : nat := nat_of_ascii c.

Definition between (lo hi : nat) (c : ascii) : bool :=
  (lo <=? code c) && (code c <=? hi).

(** [[ \t]] *)
Definition is_blank (c : ascii) : bool :=
  Ascii.eqb c " " || Ascii.eqb c tab.

(** [\s], which is also the set removed by [str.strip()] and the separators
    of [str.split()]. *)
Definition is_space (c : ascii) : bool :=
  between 9 13 c || between 28 32 c || (code c =? 133) || (code c =? 160).

(** [\w] *)
Definition is_word (c : ascii) : bool :=
  between 48 57 c || between 65 90 c || (code c =? 95) || between 97 122 c
  || (code c =? 170) || between 178 179 c || (code c =? 181)
  || between 185 186 c || between 188 190 c || between 192 214 c
  || between 216 246 c || between 248 255 c.

(** [[0-9a-fA-F]] *)
Definition is_hex (c : ascii) : bool :=
  between 48 57 c || between 97 102 c || between 65 70 c.

(** Line boundaries of [str.splitlines()]. *)
Definition is_linebreak (c : ascii) : bool :=
  between 10 13 c || between 28 30 c || (code c =? 133).

(** [str.lower()] on one character. *)
Definition lower_char (c : ascii) : ascii :=
  if between 65 90 c || between 192 214 c || between 216 222 c
  then ascii_of_nat (code c + 32) else c.

Definition lower (s : text) : text := map lower_char s.

Fixpoint text_eqb (a b : text) : bool :=
  match a, b with
  | [], [] => true
  | x :: a', y :: b' => Ascii.eqb x y && text_eqb a' b'
  | _, _ => false
  end.

(** The longest prefix whose characters satisfy [p], and what follows it: a
    greedy [[class]*]. *)
Fixpoint span_while (p : ascii -> bool) (s : text) : text * text :=
  match s with
  | c :: s' =>
      if p c then let (a, b) := span_while p s' in (c :: a, b) else ([], s)
  | [] => ([], [])
  end.

(** A literal at the head of [s]: what follows it, if it is there. *)
Fixpoint expect (l : text) (s : text) : option text :=
  match l, s with
  | [], _ => Some s
  | x :: l', y :: s' => if Ascii.eqb x y then expect l' s' else None
  | _ :: _, [] => None
  end.

(** [s[i:j]] for [0 <= i], [0 <= j]. *)
Definition slice (s : text) (i j : nat) : text := firstn (j - i) (skipn i s).

(** [sep.join(parts)] *)
Fixpoint join (sep : text) (parts : list text) : text :=
  match parts with
  | [] => []
  | [p] => p
  | p :: rest => p ++ sep ++ join sep rest
  end.

(** [str.strip()] *)
Fixpoint lstrip (s : text) : text :=
  match s with
  | c :: s' => if is_space c then lstrip s' else s
  | [] => []
  end.

Definition rstrip (s : text) : text := rev (lstrip (rev s)).

Definition strip (s : text) : text := rstrip (lstrip s).

(** [str.split(sep)] for a one-character separator: every separator cuts,
    empty fields are kept. *)
Fixpoint split_on (sep : ascii) (s : text) : list text :=
  match s with
  | [] => [[]]
  | c :: s' =>
      if Ascii.eqb c sep then [] :: split_on sep s'
      else match split_on sep s' with
           | f :: fs => (c :: f) :: fs
           | [] => [[c]]
           end
  end.

(** [str.split()]: the maximal runs of non-space characters. *)
Fixpoint split_ws (s : text) : list text :=
  match s with
  | [] => []
  | c :: s' =>
      if is_space c then split_ws s'
      else match s' with
           | d :: _ =>
               if is_space d then [c] :: split_ws s'
               else match split_ws s' with
                    | w :: ws => (c :: w) :: ws
                    | [] => [[c]]
                    end
           | [] => [[c]]
           end
  end.

(** [str.splitlines()]: a line ends at a line boundary character, "\r\n"
    counts as one boundary, and a trailing boundary opens no empty line. *)
Fixpoint splitlines_go (cur : text) (s : text) : list text :=
  match s with
  | [] => match cur with [] => [] | _ => [rev cur] end
  | c :: s' =>
      if is_linebreak c then
        rev cur ::
        match s' with
        | d :: s'' =>
            if Ascii.eqb c cr && Ascii.eqb d nl
            then splitlines_go [] s'' else splitlines_go [] s'
        | [] => []
        end
      else splitlines_go (c :: cur) s'
  end.

Definition splitlines (s : text) : list text := splitlines_go [] s.

(** ** Generators

    A generator that is driven to its end has yielded a list of values and
    then either returned or raised.  [run Y A] records both; [bind] is
    sequencing inside one generator body ([yield from] included). *)

Inductive exn : Type :=
| CondDirectiveNotMatch
| AssertionError.

Record run (Y A : Type) : Type := Run {
  yielded : list Y;
  result : exn + A
}.

Definition ret {Y A} (a : A) : run Y A := Run [] (inr a).
Definition raise {Y A} (e : exn) : run Y A := Run [] (inl e).
Definition yield {Y} (y : Y) : run Y unit := Run [y] (inr tt).

Definition bind {Y A B} (m : run Y A) (f : A -> run Y B) : run Y B :=
  match result m with
  | inl e => Run (yielded m) (inl e)
  | inr a => let r := f a in Run (yielded m ++ yielded r) (result r)
  end.

Declare Scope run_scope.
Delimit Scope run_scope with run.
Notation "x <- m ;; k" := (bind m (fun x => k))
  (at level 61, m at next level, right associativity) : run_scope.
Notation "m ;;; k" := (bind m (fun _ => k))
  (at level 61, right associativity) : run_scope.
Open Scope run_scope.

(** [for x in g: body], with a loop state [S] threaded through the body.
    The values [g] yielded are consumed in order; if [g] then raised, the
    exception surfaces after the body ran on them. *)
Fixpoint for_each {X Y S} (xs : list X) (body : X -> S -> run Y S) (s : S)
  : run Y S :=
  match xs with
  | [] => ret s
  | x :: xs' => s' <- body x s ;; for_each xs' body s'
  end.

Definition for_gen {X Y S} (g : run X unit) (body : X -> S -> run Y S) (s : S)
  : run Y S :=
  s' <- for_each (yielded g) body s ;;
  match result g with
  | inl e => raise e
  | inr _ => ret s'
  end.

(** ** Regular-expression scanning

    A pattern is given by its matcher at one position: [m bol s] is the
    match of the pattern at the head of [s] ([bol] tells whether that
    position is the start of the text or follows a newline), as its groups
    and its length.  Every pattern of the script consumes at least one
    character, and each is deterministic: its greedy classes are followed by
    a character outside the class, so no backtracking changes a match. *)

Record rmatch (G : Type) : Type := RMatch {
  m_start : nat;
  m_end : nat;
  m_groups : G
}.

Definition matcher (G : Type) : Type := bool -> text -> option (G * nat).

(** The scan of [finditer]: [skip] counts the characters still inside the
    last match, where no match is tried. *)
Fixpoint finditer_loop {G} (m : matcher G) (bol : bool) (pos skip : nat)
  (s : text) : list (rmatch G) :=
  match s with
  | [] => []
  | c :: s' =>
      let bol' := Ascii.eqb c nl in
      match skip with
      | S k => finditer_loop m bol' (S pos) k s'
      | O =>
          match m bol s with
          | Some (g, len) =>
              RMatch pos (pos + len) g
              :: finditer_loop m bol' (S pos) (len - 1) s'
          | None => finditer_loop m bol' (S pos) 0 s'
          end
      end
  end.

(** [pattern.finditer(source)] *)
Definition finditer {G} (m : matcher G) (source : text) : list (rmatch G) :=
  finditer_loop m true 0 0 source.

(** [pattern.finditer(source, pos, endpos)] for a pattern without [^]: the
    text counts as ending at [endpos]. *)
Definition finditer_in {G} (m : matcher G) (source : text) (pos endpos : nat)
  : list (rmatch G) :=
  finditer_loop m false pos 0 (slice source pos endpos).

(** [pattern.sub(repl, string)]: the text between matches is copied, each
    match is replaced by what [repl] makes of its group and its text. *)
Fixpoint sub_loop {G} (m : matcher G) (repl : G -> text -> text) (bol : bool)
  (skip : nat) (s : text) : text :=
  match s with
  | [] => []
  | c :: s' =>
      let bol' := Ascii.eqb c nl in
      match skip with
      | S k => sub_loop m repl bol' k s'
      | O =>
          match m bol s with
          | Some (g, len) =>
              repl g (firstn len s) ++ sub_loop m repl bol' (len - 1) s'
          | None => c :: sub_loop m repl bol' 0 s'
          end
      end
  end.

Definition sub {G} (m : matcher G) (repl : G -> text -> text) (s : text)
  : text :=
  sub_loop m repl true 0 s.

(** ** remove_c_comments *)

(** [match.lastgroup] of the comment pattern. *)
Inductive lastgroup : Type :=
| GString
| GComment.

(** Offset of the first [c] in [s]: where a lazy [.*?] followed by [c]
    stops (the pattern is compiled with DOTALL). *)
Fixpoint find_char (c : ascii) (s : text) : option nat :=
  match s with
  | [] => None
  | d :: s' =>
      if Ascii.eqb d c then Some 0 else option_map S (find_char c s')
  end.

(** Offset of the first "*/" in [s]. *)
Fixpoint find_close (s : text) : option nat :=
  match s with
  | c :: s' =>
      match s' with
      | d :: _ =>
          if Ascii.eqb c "*" && Ascii.eqb d "/" then Some 0
          else option_map S (find_close s')
      | [] => None
      end
  | [] => None
  end.

(** [[^\r\n]] *)
Definition not_eol (c : ascii) : bool :=
  negb (Ascii.eqb c cr || Ascii.eqb c nl).

(** [$] under MULTILINE, looking at the text that follows. *)
Definition at_eol (rest : text) : bool :=
  match rest with
  | [] => true
  | c :: _ => Ascii.eqb c nl
  end.

(** The pattern of [remove_c_comments],
    [(?P<string>\".*?\"|\'.*?\')|(?P<comment>/\*.*?\*/|//[^\r\n]*$)],
    with MULTILINE and DOTALL. *)
Definition string_or_comment : matcher lastgroup := fun _ s =>
  match s with
  | c :: r =>
      if Ascii.eqb c dquote then
        match find_char dquote r with
        | Some i => Some (GString, i + 2)
        | None => None
        end
      else if Ascii.eqb c squote then
        match find_char squote r with
        | Some i => Some (GString, i + 2)
        | None => None
        end
      else if Ascii.eqb c "/" then
        match r with
        | d :: r' =>
            if Ascii.eqb d "*" then
              match find_close r' with
              | Some i => Some (GComment, i + 4)
              | None => None
              end
            else if Ascii.eqb d "/" then
              let (body, rest) := span_while not_eol r' in
              if at_eol rest then Some (GComment, length body + 2) else None
            else None
        | [] => None
        end
      else None
  | [] => None
  end.

Definition replacer (g : lastgroup) (matched : text) : text :=
  match g with
  | GComment => []
  | GString => matched
  end.

Definition remove_c_comments (string : text) : text :=
  sub string_or_comment replacer string.

(** ** Conditional directives *)

(** The directives that open a block, which are also the kinds a stack frame
    can have, and all the directives the pattern recognises. *)
Inductive opener : Type :=
| If
| Ifdef
| Ifndef.

Inductive directive : Type :=
| Open (o : opener)
| Else
| Endif.

Definition opener_name (o : opener) : text :=
  match o with
  | If => lit "if"
  | Ifdef => lit "ifdef"
  | Ifndef => lit "ifndef"
  end.

(** The groups of a directive match; [g_directive] is the group after
    [.strip()]. *)
Record dgroups : Type := DGroups {
  g_directive : directive;
  g_param : text
}.

Definition then_blank (o : option text) : option text :=
  match o with
  | Some (c :: r) => if is_blank c then Some r else None
  | _ => None
  end.

(** [(if[ \t]|ifndef[ \t]|ifdef[ \t]|else|endif)], alternatives in order. *)
Definition directive_word (s : text) : option (directive * text) :=
  match then_blank (expect (lit "if") s) with
  | Some r => Some (Open If, r)
  | None =>
  match then_blank (expect (lit "ifndef") s) with
  | Some r => Some (Open Ifndef, r)
  | None =>
  match then_blank (expect (lit "ifdef") s) with
  | Some r => Some (Open Ifdef, r)
  | None =>
  match expect (lit "else") s with
  | Some r => Some (Else, r)
  | None =>
  match expect (lit "endif") s with
  | Some r => Some (Endif, r)
  | None => None
  end end end end end.

(** [(.*\\\n)*.*$]: the lines that end in a backslash, then the rest of one
    line; the text matched and what follows it. *)
Fixpoint take_param (s : text) : text * text :=
  match s with
  | [] => ([], [])
  | c :: s' =>
      if Ascii.eqb c nl then ([], s)
      else if Ascii.eqb c backslash then
        match s' with
        | d :: s'' =>
            if Ascii.eqb d nl
            then let (p, r) := take_param s'' in (c :: d :: p, r)
            else let (p, r) := take_param s' in (c :: p, r)
        | [] => ([c], [])
        end
      else let (p, r) := take_param s' in (c :: p, r)
  end.

(** The directive pattern of [preprocess_c_source_code], with MULTILINE:
    [^[ \t]*#[ \t]*(?P<directive>...)[ \t]*(?P<param>(.*\\\n)*.*$)]. *)
Definition directive_pattern : matcher dgroups := fun bol s =>
  if bol then
    let (_, s1) := span_while is_blank s in
    match expect (lit "#") s1 with
    | Some s2 =>
        let (_, s3) := span_while is_blank s2 in
        match directive_word s3 with
        | Some (d, s4) =>
            let (_, s5) := span_while is_blank s4 in
            let (p, s6) := take_param s5 in
            Some (DGroups d p, length s - length s6)
        | None => None
        end
    | None => None
    end
  else None.

(** A stack entry [(directive, param, start, end)]. *)
Record frame : Type := Frame {
  f_directive : opener;
  f_param : text;
  f_start : nat;
  f_end : nat
}.

(** ** Entities *)

(** [EnumDefinition]: the fields set by [__init__] ([_source] is stored and
    never read). *)
Record EnumDefinition : Type := MkEnum {
  e_prototype : text;
  e_name : text;
  e_body : text;
  e_span : nat * nat
}.

Record sig_groups : Type := SigGroups {
  g_name : text;
  g_value : text
}.

(** [SignatureAlgorithmDefinition]: the list of matches it was built from. *)
Record SignatureAlgorithmDefinition : Type := MkSig {
  s_definitions : list (rmatch sig_groups)
}.

Inductive instance : Type :=
| IEnum (e : EnumDefinition)
| ISig (d : SignatureAlgorithmDefinition).

(** [instance.span()]; a signature-algorithm group built from no match is
    ruled out by the assertion of its constructor. *)
Definition span (i : instance) : nat * nat :=
  match i with
  | IEnum e => e_span e
  | ISig d =>
      match s_definitions d with
      | m :: _ => (m_start m, m_end m)
      | [] => (0, 0)
      end
  end.

(** What the scan yields next to an offset: a guard line or an entity. *)
Inductive item : Type :=
| Line (l : text)
| Obj (i : instance).

(** An extractor class: its [extract] classmethod, a generator. *)
Record cls : Type := Cls {
  extract : text -> nat -> nat -> run instance unit
}.

(** ** preprocess_c_source_code *)

Section Preprocess.

Variable classes : list cls.
Variable source : text.

(** [_yield_objects(s, d, p, st, end)].  The closure reads [stack] (as it is
    after the pop), [pair_start] and [start] of the enclosing loop. *)
Definition _yield_objects (stack : list frame) (pair_start start : nat)
  (s : text) (d : opener) (p : text) (st en : nat) : run (nat * item) unit :=
  let '(start_line, end_line) :=
    match stack with
    | _ :: _ =>
        (lit "#" ++ opener_name d ++ lit " " ++ p,
         match d with
         | If => lit "#endif /* " ++ p ++ lit " */"
         | Ifdef => lit "#endif /* defined(" ++ p ++ lit ") */"
         | Ifndef => lit "#endif /* !defined(" ++ p ++ lit ") */"
         end)
    | [] => ([], [])
    end in
  has_instance <-
    for_each classes (fun c (has : bool) =>
      for_gen (extract c s st en) (fun instance (has : bool) =>
        (if has then ret tt else yield (pair_start, Line start_line)) ;;;
        yield (fst (span instance), Obj instance) ;;;
        ret true) has) false ;;
  if has_instance then yield (start, Line end_line) else ret tt.

(** One turn of [for match in pattern.finditer(source)]: the stack after
    it, or the exception that ends the generator. *)
Definition loop_body (m : rmatch dgroups) (stack : list frame)
  : run (nat * item) (list frame) :=
  let param := g_param (m_groups m) in
  let start := m_start m in
  let en := m_end m in
  match g_directive (m_groups m) with
  | Open o => ret (Frame o param start en :: stack)
  | closing =>
      match stack with
      | [] => raise CondDirectiveNotMatch
      | Frame pair_directive pair_param pair_start pair_end :: stack' =>
          _yield_objects stack' pair_start start
            source pair_directive pair_param pair_end start ;;;
          match closing with
          | Endif => ret stack'
          | _ =>
              let '(directive', param') :=
                match pair_directive with
                | If => (If, lit "!( " ++ pair_param ++ lit " )")
                | Ifdef => (Ifndef, pair_param)
                | Ifndef => (Ifdef, pair_param)
                end in
              ret (Frame directive' param' start en :: stack')
          end
      end
  end.

Definition scan (ms : list (rmatch dgroups)) (stack : list frame)
  : run (nat * item) (list frame) :=
  for_each ms loop_body stack.

(** The generator as a whole; the last line is [assert not stack]. *)
Definition preprocess_c_source_code : run (nat * item) unit :=
  stack <- scan (finditer directive_pattern source) [] ;;
  match stack with
  | [] => ret tt
  | _ :: _ => raise AssertionError
  end.

End Preprocess.

(** ** EnumDefinition *)

Record enum_groups : Type := EnumGroups {
  prefix_name : text;
  body : text;
  suffix_name : text
}.

(** The enum pattern, spaced out for reading:
    [enum \s* (?P<prefix_name> \w* ) \s* { \s* (?P<body> [^}]* ) }
     \s* (?P<suffix_name> \w* ) \s* ;] *)
Definition enum_pattern : matcher enum_groups := fun _ s =>
  match expect (lit "enum") s with
  | Some s1 =>
      let (_, s2) := span_while is_space s1 in
      let (prefix, s3) := span_while is_word s2 in
      let (_, s4) := span_while is_space s3 in
      match expect (lit "{") s4 with
      | Some s5 =>
          let (_, s6) := span_while is_space s5 in
          let (b, s7) := span_while (fun c => negb (Ascii.eqb c "}")) s6 in
          match expect (lit "}") s7 with
          | Some s8 =>
              let (_, s9) := span_while is_space s8 in
              let (suffix, s10) := span_while is_word s9 in
              let (_, s11) := span_while is_space s10 in
              match expect (lit ";") s11 with
              | Some s12 =>
                  Some (EnumGroups prefix b suffix, length s - length s12)
              | None => None
              end
          | None => None
          end
      | None => None
      end
  | None => None
  end.

Definition nonempty (t : text) : bool :=
  match t with
  | [] => false
  | _ :: _ => true
  end.

(** [EnumDefinition.__init__] with its assertions. *)
Definition EnumDefinition_init (sp : nat * nat) (group : enum_groups)
  : exn + EnumDefinition :=
  if nonempty (prefix_name group) || nonempty (suffix_name group) then
    if nonempty (body group) then
      inr (MkEnum
             (if nonempty (suffix_name group) then suffix_name group
              else lit "enum " ++ prefix_name group)
             (if nonempty (suffix_name group) then suffix_name group
              else prefix_name group)
             (body group)
             sp)
    else inl AssertionError
  else inl AssertionError.

Definition EnumDefinition_extract (source_code : text) (start en : nat)
  : run instance unit :=
  for_each (finditer_in enum_pattern source_code start en)
    (fun m _ =>
       match EnumDefinition_init (m_start m, m_end m) (m_groups m) with
       | inl e => raise e
       | inr d => yield (IEnum d)
       end) tt.

Definition EnumDefinition_cls : cls := Cls EnumDefinition_extract.

Definition startswith_hash (s : text) : bool :=
  match s with
  | c :: _ => Ascii.eqb c "#"
  | [] => false
  end.

(** The loop of [generate_translation_function] that builds
    [translation_table]. *)
Definition translation_table_of_body (b : text) : list text :=
  flat_map (fun line =>
    if startswith_hash (strip line) then [strip line]
    else if negb (nonempty (strip line)) then []
    else flat_map (fun field =>
           if negb (nonempty (strip field)) then []
           else
             let member := hd [] (split_ws (strip field)) in
             [lit "        [" ++ member ++ lit "] = " ++ [dquote] ++ member
              ++ [dquote] ++ lit ","])
         (split_on "," (strip line)))
    (splitlines b).

(** [generate_translation_function]: the dedented template, filled in. *)
Definition generate_translation_function (e : EnumDefinition) : text :=
  lit "const char *" ++ e_name e ++ lit "_str( " ++ e_prototype e
  ++ lit " in )" ++ [nl]
  ++ lit "{" ++ [nl]
  ++ lit "    const char * in_to_str[]=" ++ [nl]
  ++ lit "    {" ++ [nl]
  ++ join [nl] (translation_table_of_body (e_body e)) ++ [nl]
  ++ lit "    };" ++ [nl]
  ++ [nl]
  ++ lit "    if( in > ( sizeof( in_to_str )/sizeof( in_to_str[0]) - 1 ) ||"
  ++ [nl]
  ++ lit "        in_to_str[ in ] == NULL )" ++ [nl]
  ++ lit "    {" ++ [nl]
  ++ lit "        return " ++ [dquote] ++ lit "UNKOWN_VAULE" ++ [dquote]
  ++ lit ";" ++ [nl]
  ++ lit "    }" ++ [nl]
  ++ lit "    return in_to_str[ in ];" ++ [nl]
  ++ lit "}" ++ [nl].

(** ** SignatureAlgorithmDefinition *)

Definition sig_prefix : text := lit "MBEDTLS_TLS1_3_SIG_".

(** [#define\s+(?P<name>MBEDTLS_TLS1_3_SIG_\w+)\s+(?P<value>0[xX][0-9a-fA-F]+)$],
    with MULTILINE. *)
Definition sig_alg_pattern : matcher sig_groups := fun _ s =>
  match expect (lit "#define") s with
  | Some s1 =>
      let (ws1, s2) := span_while is_space s1 in
      match expect sig_prefix s2 with
      | Some s3 =>
          let (w, s4) := span_while is_word s3 in
          let (ws2, s5) := span_while is_space s4 in
          match s5 with
          | z :: x :: s6 =>
              let (h, s7) := span_while is_hex s6 in
              if nonempty ws1 && nonempty w && nonempty ws2
                 && Ascii.eqb z "0" && (Ascii.eqb x "x" || Ascii.eqb x "X")
                 && nonempty h && at_eol s7
              then Some (SigGroups (sig_prefix ++ w) (z :: x :: h),
                         length s - length s7)
              else None
          | _ => None
          end
      | None => None
      end
  | None => None
  end.

Definition SignatureAlgorithmDefinition_extract (source_code : text)
  (start en : nat) : run instance unit :=
  let matches := finditer_in sig_alg_pattern source_code start en in
  match matches with
  | _ :: _ => yield (ISig (MkSig matches))
  | [] => ret tt
  end.

Definition SignatureAlgorithmDefinition_cls : cls :=
  Cls SignatureAlgorithmDefinition_extract.

(** One entry of [translation_table] in [__str__]. *)
Definition sig_case (name : text) : text :=
  [tab] ++ lit "case " ++ name ++ lit ":" ++ [nl]
  ++ [tab] ++ lit "    return " ++ [dquote]
  ++ lower (skipn (length sig_prefix) name) ++ [dquote] ++ lit ";".

(** [SignatureAlgorithmDefinition.__str__]: the dedented template, filled
    in. *)
Definition SignatureAlgorithmDefinition_str (d : SignatureAlgorithmDefinition)
  : text :=
  lit "const char *mbedtls_ssl_sig_alg_to_str( uint16_t in )" ++ [nl]
  ++ lit "{" ++ [nl]
  ++ lit "    switch( in )" ++ [nl]
  ++ lit "    {" ++ [nl]
  ++ join [nl] (map (fun m => sig_case (g_name (m_groups m)))
                  (s_definitions d)) ++ [nl]
  ++ lit "    };" ++ [nl]
  ++ [nl]
  ++ lit "    return " ++ [dquote] ++ lit "UNKOWN" ++ [dquote] ++ lit ";"
  ++ [nl]
  ++ lit "}".

(** ** generate_ssl_debug_helpers *)

(** [OUTPUT_C_TEMPLATE.format(functions=...)].  The template is not a raw
    string, so its "\file" and "\brief" hold a form feed and a backspace. *)
Definition OUTPUT_C_TEMPLATE (functions : text) : text :=
  join [nl]
    [ lit "/* Automatically generated by generate_ssl_debug_helpers.py. DO NOT EDIT. */";
      [];
      lit "/**";
      lit " * " ++ ["012"%char] ++ lit "ile ssl_debug_helpers_generated.c";
      lit " *";
      lit " * " ++ ["008"%char]
        ++ lit "rief Automatically generated helper functions for debugging";
      lit " */";
      lit "/*";
      lit " *  Copyright The Mbed TLS Contributors";
      lit " *  SPDX-License-Identifier: Apache-2.0";
      lit " *";
      lit " *  Licensed under the Apache License, Version 2.0 (the "
        ++ [dquote] ++ lit "License" ++ [dquote] ++ lit "); you may";
      lit " *  not use this file except in compliance with the License.";
      lit " *  You may obtain a copy of the License at";
      lit " *";
      lit " *  http://www.apache.org/licenses/LICENSE-2.0";
      lit " *";
      lit " *  Unless required by applicable law or agreed to in writing, software";
      lit " *  distributed under the License is distributed on an "
        ++ [dquote] ++ lit "AS IS" ++ [dquote] ++ lit " BASIS, WITHOUT";
      lit " *  WARRANTIES OR CONDITIONS OF ANY KIND, either express or implied.";
      lit " *  See the License for the specific language governing permissions and";
      lit " *  limitations under the License.";
      lit " */";
      [];
      lit "#include " ++ [dquote] ++ lit "common.h" ++ [dquote];
      [];
      lit "#if defined(MBEDTLS_DEBUG_C)";
      [];
      lit "#include " ++ [dquote] ++ lit "ssl_debug_helpers.h" ++ [dquote];
      [];
      functions;
      [];
      lit "#endif /* MBEDTLS_DEBUG_C */";
      lit "/* End of automatically generated file. */";
      [];
      [] ].

(** A value of the [definitions] dict: a string (a guard line or the text
    generated for an enum) or a signature-algorithm object. *)
Inductive definition : Type :=
| DText (t : text)
| DSig (d : SignatureAlgorithmDefinition).

Definition definition_of (it : item) : definition :=
  match it with
  | Obj (IEnum e) => DText (generate_translation_function e)
  | Obj (ISig d) => DSig d
  | Line l => DText l
  end.

Definition str (d : definition) : text :=
  match d with
  | DText t => t
  | DSig d => SignatureAlgorithmDefinition_str d
  end.

(** The dict, in insertion order. *)
Definition dict : Type := list (nat * definition).

Definition dict_mem (k : nat) (d : dict) : bool :=
  existsb (fun kv => fst kv =? k) d.

(** The loop over the generator: a start offset already present is
    skipped. *)
Fixpoint collect (ys : list (nat * item)) (definitions : dict) : dict :=
  match ys with
  | [] => definitions
  | (start, instance) :: ys' =>
      if dict_mem start definitions then collect ys' definitions
      else collect ys' (definitions ++ [(start, definition_of instance)])
  end.

(** [sorted(definitions.items())]: the keys are distinct, so the order is
    the order of the keys. *)
Fixpoint insert_sorted (kv : nat * definition) (l : dict) : dict :=
  match l with
  | [] => [kv]
  | x :: l' =>
      if fst kv <=? fst x then kv :: l else x :: insert_sorted kv l'
  end.

Definition sorted (d : dict) : dict := fold_right insert_sorted [] d.

(** [generate_ssl_debug_helpers] from the text read from ssl.h to the text
    written, for any list of extractor classes.  An exception of the scan
    leaves the loop before anything is written. *)
Definition generate_with (classes : list cls) (contents : text)
  : exn + text :=
  let source_code := remove_c_comments contents in
  let g := preprocess_c_source_code classes source_code in
  match result g with
  | inl e => inl e
  | inr _ =>
      let definitions := collect (yielded g) [] in
      let function_definitions := map (fun kv => str (snd kv))
                                      (sorted definitions) in
      inr (OUTPUT_C_TEMPLATE (join [nl] function_definitions))
  end.

Definition generate_ssl_debug_helpers (contents : text) : exn + text :=
  generate_with [EnumDefinition_cls; SignatureAlgorithmDefinition_cls]
    contents.

(** * Properties *)

(** ** Generators: sequencing laws *)

Lemma bind_ret_l {Y A B} (a : A) (f : A -> run Y B) : bind (ret a) f = f a.
Proof. unfold bind, ret; simpl. destruct (f a); reflexivity. Qed.

Lemma yielded_bind_ok {Y A B} (m : run Y A) (f : A -> run Y B) a :
  result m = inr a -> yielded (bind m f) = yielded m ++ yielded (f a).
Proof. intros H. unfold bind. rewrite H. reflexivity. Qed.

Lemma result_bind_ok {Y A B} (m : run Y A) (f : A -> run Y B) a :
  result m = inr a -> result (bind m f) = result (f a).
Proof. intros H. unfold bind. rewrite H. reflexivity. Qed.

Lemma yielded_bind_raise {Y A B} (m : run Y A) (f : A -> run Y B) e :
  result m = inl e -> yielded (bind m f) = yielded m.
Proof. intros H. unfold bind. rewrite H. reflexivity. Qed.

Lemma result_bind_raise {Y A B} (m : run Y A) (f : A -> run Y B) e :
  result m = inl e -> result (bind m f) = inl e.
Proof. intros H. unfold bind. rewrite H. reflexivity. Qed.

Lemma bind_assoc {Y A B C} (m : run Y A) (f : A -> run Y B)
  (g : B -> run Y C) :
  bind (bind m f) g = bind m (fun a => bind (f a) g).
Proof.
  unfold bind. destruct m as [ys [e | a]]; simpl; [reflexivity |].
  destruct (f a) as [ys' [e | b]]; simpl; [reflexivity |].
  rewrite app_assoc. reflexivity.
Qed.

Lemma for_each_app {X Y S} (xs ys : list X) (body : X -> S -> run Y S) s :
  for_each (xs ++ ys) body s =
  bind (for_each xs body s) (for_each ys body).
Proof.
  revert s. induction xs as [| x xs IH]; intros s; simpl.
  - rewrite bind_ret_l. reflexivity.
  - unfold bind at 1 3. destruct (body x s) as [y0 [e | s']]; simpl.
    + reflexivity.
    + rewrite IH. unfold bind.
      destruct (for_each xs body s') as [y1 [e | s'']]; simpl.
      * reflexivity.
      * rewrite app_assoc. reflexivity.
Qed.

(** ** What one call of [_yield_objects] yields *)

(** The extractors run one after the other over the same region; the first
    exception ends the run. *)
Fixpoint extract_all (classes : list cls) (s : text) (st en : nat)
  : run instance unit :=
  match classes with
  | [] => ret tt
  | c :: cs => extract c s st en ;;; extract_all cs s st en
  end.

Definition obj_item (i : instance) : nat * item := (fst (span i), Obj i).

Definition has_any {A} (l : list A) : bool :=
  match l with
  | [] => false
  | _ :: _ => true
  end.

(** The guard lines chosen at the head of [_yield_objects]. *)
Definition guard_lines (stack : list frame) (d : opener) (p : text)
  : text * text :=
  match stack with
  | _ :: _ =>
      (lit "#" ++ opener_name d ++ lit " " ++ p,
       match d with
       | If => lit "#endif /* " ++ p ++ lit " */"
       | Ifdef => lit "#endif /* defined(" ++ p ++ lit ") */"
       | Ifndef => lit "#endif /* !defined(" ++ p ++ lit ") */"
       end)
  | [] => ([], [])
  end.

(** The instances of a region between their two guard lines: nothing when
    there is no instance, no closing line when an extractor raised. *)
Definition emission (pair_start : nat) (start_line : text)
  (g : run instance unit) (start : nat) (end_line : text)
  : run (nat * item) unit :=
  Run ((if has_any (yielded g) then [(pair_start, Line start_line)] else [])
       ++ map obj_item (yielded g)
       ++ match result g with
          | inr _ => if has_any (yielded g) then [(start, Line end_line)]
                     else []
          | inl _ => []
          end)
      (result g).

Section YieldObjects.

Variables (pair_start : nat) (start_line : text).

Let body := fun (instance : instance) (has : bool) =>
  (if has then ret tt else yield (pair_start, Line start_line)) ;;;
  yield (fst (span instance), Obj instance) ;;;
  @ret (nat * item) bool true.

Lemma inner_loop_spec (insts : list instance) (has : bool) :
  for_each insts body has =
  Run ((if has then [] else
          if has_any insts then [(pair_start, Line start_line)] else [])
       ++ map obj_item insts)
      (inr (has || has_any insts)).
Proof.
  revert has. induction insts as [| i insts IH]; intros has.
  - destruct has; reflexivity.
  - cbn [for_each].
    assert (Hb : body i has =
                 Run ((if has then [] else [(pair_start, Line start_line)])
                      ++ [obj_item i]) (inr true))
      by (destruct has; reflexivity).
    rewrite Hb. unfold bind; cbn [result yielded]. rewrite IH.
    destruct has; reflexivity.
Qed.

Lemma for_gen_spec (g : run instance unit) (has : bool) :
  for_gen g body has =
  Run ((if has then [] else
          if has_any (yielded g) then [(pair_start, Line start_line)]
          else [])
       ++ map obj_item (yielded g))
      (match result g with
       | inl e => inl e
       | inr _ => inr (has || has_any (yielded g))
       end).
Proof.
  unfold for_gen. rewrite inner_loop_spec. unfold bind; simpl.
  destruct (result g); simpl; rewrite app_nil_r; reflexivity.
Qed.

Lemma outer_loop_spec (classes : list cls) (s : text) (st en : nat)
  (has : bool) :
  let g := extract_all classes s st en in
  for_each classes (fun c (has : bool) => for_gen (extract c s st en) body has)
    has =
  Run ((if has then [] else
          if has_any (yielded g) then [(pair_start, Line start_line)]
          else [])
       ++ map obj_item (yielded g))
      (match result g with
       | inl e => inl e
       | inr _ => inr (has || has_any (yielded g))
       end).
Proof.
  revert has. induction classes as [| c cs IH]; intros has.
  - destruct has; reflexivity.
  - cbn [for_each extract_all]. rewrite for_gen_spec.
    unfold bind; cbn [result yielded].
    destruct (extract c s st en) as [ys [e | []]]; cbn [result yielded].
    + reflexivity.
    + rewrite IH. cbn [result yielded].
      destruct (extract_all cs s st en) as [zs r]; cbn [result yielded].
      rewrite map_app.
      destruct has, ys, zs, r; simpl; rewrite ?app_nil_r, <- ?app_assoc;
        reflexivity.
Qed.

End YieldObjects.

Lemma yield_objects_spec (classes : list cls) (stack : list frame)
  (pair_start start : nat) (s : text) (d : opener) (p : text) (st en : nat) :
  _yield_objects classes stack pair_start start s d p st en =
  emission pair_start (fst (guard_lines stack d p))
    (extract_all classes s st en) start (snd (guard_lines stack d p)).
Proof.
  unfold _yield_objects, emission.
  replace (match stack with
           | [] => ([], [])
           | _ :: _ =>
               (lit "#" ++ opener_name d ++ lit " " ++ p,
                match d with
                | If => lit "#endif /* " ++ p ++ lit " */"
                | Ifdef => lit "#endif /* defined(" ++ p ++ lit ") */"
                | Ifndef => lit "#endif /* !defined(" ++ p ++ lit ") */"
                end)
           end) with (guard_lines stack d p) by (destruct stack; reflexivity).
  destruct (guard_lines stack d p) as [sl el]; simpl.
  rewrite (outer_loop_spec pair_start sl classes s st en false).
  unfold bind; simpl.
  destruct (extract_all classes s st en) as [ys [e | []]]; simpl.
  - rewrite app_nil_r. reflexivity.
  - destruct ys; simpl; rewrite ?app_nil_r, <- ?app_assoc; reflexivity.
Qed.

(** ** One turn of the scan, case by case *)

Definition closing (m : rmatch dgroups) : Prop :=
  g_directive (m_groups m) = Else \/ g_directive (m_groups m) = Endif.

(** The frame pushed in place of [fr] when [m] is an [#else]. *)
Definition else_frame (fr : frame) (m : rmatch dgroups) : frame :=
  match f_directive fr with
  | If => Frame If (lit "!( " ++ f_param fr ++ lit " )") (m_start m) (m_end m)
  | Ifdef => Frame Ifndef (f_param fr) (m_start m) (m_end m)
  | Ifndef => Frame Ifdef (f_param fr) (m_start m) (m_end m)
  end.

(** What the scan yields when [m] closes the frame [fr] above [stack]. *)
Definition scope_emission (classes : list cls) (source : text) (fr : frame)
  (stack : list frame) (m : rmatch dgroups) : run (nat * item) unit :=
  emission (f_start fr)
    (fst (guard_lines stack (f_directive fr) (f_param fr)))
    (extract_all classes source (f_end fr) (m_start m))
    (m_start m)
    (snd (guard_lines stack (f_directive fr) (f_param fr))).

Section ScanSteps.

Variables (classes : list cls) (source : text).

Lemma loop_body_open m stack o :
  g_directive (m_groups m) = Open o ->
  loop_body classes source m stack =
  ret (Frame o (g_param (m_groups m)) (m_start m) (m_end m) :: stack).
Proof. intros H. unfold loop_body. rewrite H. reflexivity. Qed.

Lemma loop_body_unmatched m :
  closing m ->
  loop_body classes source m [] = raise CondDirectiveNotMatch.
Proof. intros [H | H]; unfold loop_body; rewrite H; reflexivity. Qed.

Lemma loop_body_else m fr stack :
  g_directive (m_groups m) = Else ->
  loop_body classes source m (fr :: stack) =
  scope_emission classes source fr stack m ;;; ret (else_frame fr m :: stack).
Proof.
  intros H. unfold loop_body. rewrite H. destruct fr as [d p s e].
  rewrite yield_objects_spec. unfold scope_emission, else_frame; simpl.
  destruct d; reflexivity.
Qed.

Lemma loop_body_endif m fr stack :
  g_directive (m_groups m) = Endif ->
  loop_body classes source m (fr :: stack) =
  scope_emission classes source fr stack m ;;; ret stack.
Proof.
  intros H. unfold loop_body. rewrite H. destruct fr as [d p s e].
  rewrite yield_objects_spec. reflexivity.
Qed.

Lemma scan_app ms1 ms2 stack :
  scan classes source (ms1 ++ ms2) stack =
  bind (scan classes source ms1 stack) (scan classes source ms2).
Proof. apply for_each_app. Qed.

Lemma scan_cons m ms stack :
  scan classes source (m :: ms) stack =
  bind (loop_body classes source m stack) (scan classes source ms).
Proof. reflexivity. Qed.

(** The yields of a prefix of the directives open the yields of the whole
    scan. *)
Lemma scan_prefix ms1 ms2 stack stack1 :
  result (scan classes source ms1 stack) = inr stack1 ->
  scan classes source (ms1 ++ ms2) stack =
  Run (yielded (scan classes source ms1 stack)
       ++ yielded (scan classes source ms2 stack1))
      (result (scan classes source ms2 stack1)).
Proof. intros H. rewrite scan_app. unfold bind. rewrite H. reflexivity. Qed.

End ScanSteps.

(** The scan as a whole, from the list of its directives. *)
Lemma preprocess_unfold classes source :
  preprocess_c_source_code classes source =
  bind (scan classes source (finditer directive_pattern source) [])
       (fun stack => match stack with
                     | [] => ret tt
                     | _ :: _ => raise AssertionError
                     end).
Proof. reflexivity. Qed.

Unset Implicit Arguments.

(** The two extractor classes of the script, in the order in which
    [generate_ssl_debug_helpers] registers them. *)
Definition registered : list cls :=
  [EnumDefinition_cls; SignatureAlgorithmDefinition_cls].

(** [lines l] is the text whose lines are [l], each ended by a newline. *)
Definition lines (l : list text) : text := flat_map (fun x => x ++ [nl]) l.

(** ** Unbalanced directives *)

(** C3 (as the code has it): when the end of the input is reached with a
    frame still on the stack, the scan ends in the [AssertionError] of
    [assert not stack], not in [CondDirectiveNotMatch]; everything the scan
    yielded before is unchanged, and [generate_ssl_debug_helpers] writes
    nothing. *)
Theorem C3_unterminated_block_is_assertion_error
  (classes : list cls) (source : text) (fr : frame) (stack : list frame) :
  result (scan classes source (finditer directive_pattern source) [])
  = inr (fr :: stack) ->
  preprocess_c_source_code classes source =
  Run (yielded (scan classes source (finditer directive_pattern source) []))
      (inl AssertionError)
  /\ (forall contents, remove_c_comments contents = source ->
      generate_with classes contents = inl AssertionError).
Proof.
  intros H.
  assert (Hp : preprocess_c_source_code classes source =
               Run (yielded (scan classes source
                               (finditer directive_pattern source) []))
                   (inl AssertionError)).
  { rewrite preprocess_unfold. unfold bind. rewrite H. simpl.
    rewrite app_nil_r. reflexivity. }
  split; [exact Hp |].
  intros contents Hc. unfold generate_with. rewrite Hc, Hp. reflexivity.
Qed.

Lemma C3_unterminated_block_witness :
  preprocess_c_source_code registered (lines [lit "#ifdef X"]) =
  Run [] (inl AssertionError)
  /\ generate_ssl_debug_helpers (lines [lit "#ifdef X"]) = inl AssertionError.
Proof.
  destruct (C3_unterminated_block_is_assertion_error registered
              (lines [lit "#ifdef X"]) (Frame Ifdef (lit "X") 0 8) [])
    as [Hp Hg].
  - vm_compute. reflexivity.
  - split.
    + rewrite Hp. vm_compute. reflexivity.
    + apply Hg. vm_compute. reflexivity.
Defined.

(** C5: an [#else] or [#endif] scanned while the stack is empty raises
    [CondDirectiveNotMatch]; the generator has yielded what the directives
    before it made it yield, and [generate_ssl_debug_helpers] writes
    nothing. *)
Theorem C5_closing_on_empty_stack_raises
  (classes : list cls) (source : text)
  (pre : list (rmatch dgroups)) (m : rmatch dgroups)
  (post : list (rmatch dgroups)) :
  finditer directive_pattern source = pre ++ m :: post ->
  result (scan classes source pre []) = inr [] ->
  closing m ->
  preprocess_c_source_code classes source =
  Run (yielded (scan classes source pre [])) (inl CondDirectiveNotMatch)
  /\ (forall contents, remove_c_comments contents = source ->
      generate_with classes contents = inl CondDirectiveNotMatch).
Proof.
  intros Hd Hpre Hm.
  assert (Hp : preprocess_c_source_code classes source =
               Run (yielded (scan classes source pre []))
                   (inl CondDirectiveNotMatch)).
  { rewrite preprocess_unfold, Hd.
    rewrite (scan_prefix classes source pre (m :: post) [] Hpre).
    rewrite scan_cons, (loop_body_unmatched classes source Hm).
    unfold bind; simpl. rewrite app_nil_r. reflexivity. }
  split; [exact Hp |].
  intros contents Hc. unfold generate_with. rewrite Hc, Hp. reflexivity.
Qed.

Lemma C5_closing_on_empty_stack_witness :
  preprocess_c_source_code registered
    (lines [lit "#ifdef A"; lit "#endif"; lit "#endif"]) =
  Run [] (inl CondDirectiveNotMatch)
  /\ generate_ssl_debug_helpers
       (lines [lit "#ifdef A"; lit "#endif"; lit "#endif"])
     = inl CondDirectiveNotMatch.
Proof.
  destruct (C5_closing_on_empty_stack_raises registered
              (lines [lit "#ifdef A"; lit "#endif"; lit "#endif"])
              [RMatch 0 8 (DGroups (Open Ifdef) (lit "A"));
               RMatch 9 15 (DGroups Endif [])]
              (RMatch 16 22 (DGroups Endif [])) [])
    as [Hp Hg].
  - vm_compute. reflexivity.
  - vm_compute. reflexivity.
  - right. reflexivity.
  - split.
    + rewrite Hp. vm_compute. reflexivity.
    + apply Hg. vm_compute. reflexivity.
Defined.

(** ** The frame of an [#else] branch *)

(** C4: when an [#else] pops a frame, the frame pushed in its place has the
    span of the [#else] and is: [if] with parameter [!( P )] for an [if]
    frame with parameter [P]; [ifndef] with the same parameter for an
    [ifdef] frame; [ifdef] with the same parameter for an [ifndef] frame.
    The rest of the stack is untouched. *)
Theorem C4_else_pushes_complement
  (classes : list cls) (source : text) (m : rmatch dgroups)
  (fr : frame) (stack : list frame) :
  g_directive (m_groups m) = Else ->
  result (extract_all classes source (f_end fr) (m_start m)) = inr tt ->
  result (loop_body classes source m (fr :: stack)) =
  inr (Frame
         (match f_directive fr with
          | If => If
          | Ifdef => Ifndef
          | Ifndef => Ifdef
          end)
         (match f_directive fr with
          | If => lit "!( " ++ f_param fr ++ lit " )"
          | Ifdef => f_param fr
          | Ifndef => f_param fr
          end)
         (m_start m) (m_end m) :: stack).
Proof.
  intros Hm Hx. rewrite (loop_body_else classes source m fr stack Hm).
  unfold bind, scope_emission, emission; cbn [result yielded].
  rewrite Hx. cbn [result yielded ret]. unfold else_frame.
  destruct (f_directive fr); reflexivity.
Qed.

Lemma C4_else_pushes_complement_witness :
  result (loop_body registered
            (lines [lit "#if A > 1"; lit "#else"; lit "#endif"])
            (RMatch 10 15 (DGroups Else []))
            [Frame If (lit "A > 1") 0 9])
  = inr [Frame If (lit "!( A > 1 )") 10 15].
Proof.
  apply (C4_else_pushes_complement registered
           (lines [lit "#if A > 1"; lit "#else"; lit "#endif"])
           (RMatch 10 15 (DGroups Else []))
           (Frame If (lit "A > 1") 0 9) []).
  - reflexivity.
  - vm_compute. reflexivity.
Defined.

(** ** Scopes and their guard lines *)

Section ScanYields.

Variables (classes : list cls) (source : text).

Lemma scan_open m ms stack o :
  g_directive (m_groups m) = Open o ->
  scan classes source (m :: ms) stack =
  scan classes source ms
    (Frame o (g_param (m_groups m)) (m_start m) (m_end m) :: stack).
Proof.
  intros H. rewrite scan_cons, (loop_body_open classes source m stack H).
  apply bind_ret_l.
Qed.

Lemma scope_emission_result fr stack m :
  result (scope_emission classes source fr stack m) =
  result (extract_all classes source (f_end fr) (m_start m)).
Proof. reflexivity. Qed.

Lemma scan_else m ms fr stack :
  g_directive (m_groups m) = Else ->
  result (extract_all classes source (f_end fr) (m_start m)) = inr tt ->
  scan classes source (m :: ms) (fr :: stack) =
  Run (yielded (scope_emission classes source fr stack m)
       ++ yielded (scan classes source ms (else_frame fr m :: stack)))
      (result (scan classes source ms (else_frame fr m :: stack))).
Proof.
  intros H Hx. rewrite scan_cons, (loop_body_else classes source m fr stack H).
  unfold bind. rewrite scope_emission_result, Hx. cbn [result yielded ret].
  rewrite app_nil_r. reflexivity.
Qed.

Lemma scan_endif m ms fr stack :
  g_directive (m_groups m) = Endif ->
  result (extract_all classes source (f_end fr) (m_start m)) = inr tt ->
  scan classes source (m :: ms) (fr :: stack) =
  Run (yielded (scope_emission classes source fr stack m)
       ++ yielded (scan classes source ms stack))
      (result (scan classes source ms stack)).
Proof.
  intros H Hx.
  rewrite scan_cons, (loop_body_endif classes source m fr stack H).
  unfold bind. rewrite scope_emission_result, Hx. cbn [result yielded ret].
  rewrite app_nil_r. reflexivity.
Qed.

(** Whatever closes [fr], its scope is emitted first. *)
Lemma scan_closing_yields m ms fr stack :
  closing m ->
  result (extract_all classes source (f_end fr) (m_start m)) = inr tt ->
  exists rest,
    yielded (scan classes source (m :: ms) (fr :: stack)) =
    yielded (scope_emission classes source fr stack m) ++ rest.
Proof.
  intros [H | H] Hx.
  - rewrite (scan_else m ms fr stack H Hx). eexists. reflexivity.
  - rewrite (scan_endif m ms fr stack H Hx). eexists. reflexivity.
Qed.

Lemma preprocess_yields_scan :
  exists rest,
    yielded (preprocess_c_source_code classes source) =
    yielded (scan classes source (finditer directive_pattern source) [])
    ++ rest.
Proof.
  rewrite preprocess_unfold. unfold bind.
  destruct (result (scan classes source (finditer directive_pattern source) []))
    as [e | st]; cbn [yielded].
  - exists []. rewrite app_nil_r. reflexivity.
  - eexists. reflexivity.
Qed.

End ScanYields.

(** The yields of a scope with the guard lines spelled out. *)
Definition guarded (pair_start : nat) (start_line : text)
  (insts : list instance) (start : nat) (end_line : text)
  : list (nat * item) :=
  match insts with
  | [] => []
  | _ :: _ =>
      (pair_start, Line start_line) :: map obj_item insts
      ++ [(start, Line end_line)]
  end.

Lemma emission_guarded pair_start start_line g start end_line :
  result g = inr tt ->
  yielded (emission pair_start start_line g start end_line) =
  guarded pair_start start_line (yielded g) start end_line.
Proof.
  intros H. unfold emission. rewrite H. cbn [yielded].
  destruct (yielded g); reflexivity.
Qed.

(** C1, refuted as stated: a text without any directive holds an enum that
    the enum extractor finds in it, and the scan yields nothing. *)
Lemma C1_top_level_text_is_not_scanned :
  let source := lines [lit "typedef enum { RED, GREEN, BLUE } Color;"] in
  finditer directive_pattern source = []
  /\ ~ (forall c i,
          In c registered ->
          In i (yielded (extract c source 0 (length source))) ->
          In (obj_item i)
             (yielded (preprocess_c_source_code registered source))).
Proof.
  split; [vm_compute; reflexivity |].
  intros H.
  specialize (H EnumDefinition_cls
                (IEnum (MkEnum (lit "Color") (lit "Color")
                          (lit "RED, GREEN, BLUE ") (8, 40)))).
  apply H.
  - left. reflexivity.
  - vm_compute. left. reflexivity.
Qed.

(** *** The scopes a scan closes

    A scope is closed each time an [#else] or an [#endif] is read while a
    block is open: the frame popped, the stack left under it, and the
    closing directive. *)
Record scope : Type := Scope {
  sc_frame : frame;
  sc_stack : list frame;
  sc_close : rmatch dgroups
}.

(** The scopes closed by the directives [ms] read from the stack [stack],
    in the order of their closing directives, up to a closing directive
    that finds no block open. *)
Fixpoint scopes (ms : list (rmatch dgroups)) (stack : list frame)
  : list scope :=
  match ms with
  | [] => []
  | m :: ms' =>
      match g_directive (m_groups m) with
      | Open o =>
          scopes ms'
            (Frame o (g_param (m_groups m)) (m_start m) (m_end m) :: stack)
      | Else =>
          match stack with
          | [] => []
          | fr :: st => Scope fr st m :: scopes ms' (else_frame fr m :: st)
          end
      | Endif =>
          match stack with
          | [] => []
          | fr :: st => Scope fr st m :: scopes ms' st
          end
      end
  end.

(** The region of a scope: from the end of the directive that opened the
    frame to the start of the directive that closes it. *)
Definition scope_region (classes : list cls) (source : text) (sc : scope)
  : run instance unit :=
  extract_all classes source (f_end (sc_frame sc)) (m_start (sc_close sc)).

(** What closing a scope yields. *)
Definition scope_run (classes : list cls) (source : text) (sc : scope)
  : run (nat * item) unit :=
  scope_emission classes source (sc_frame sc) (sc_stack sc) (sc_close sc).

(** What a list of scopes yields: each in turn, up to the first one on
    which an extractor raises. *)
Fixpoint emitted (classes : list cls) (source : text) (scs : list scope)
  : list (nat * item) :=
  match scs with
  | [] => []
  | sc :: rest =>
      yielded (scope_run classes source sc)
      ++ match result (scope_run classes source sc) with
         | inr _ => emitted classes source rest
         | inl _ => []
         end
  end.

Lemma scan_emitted (classes : list cls) (source : text)
  (ms : list (rmatch dgroups)) : forall stack,
  yielded (scan classes source ms stack)
  = emitted classes source (scopes ms stack).
Proof.
  induction ms as [| m ms IH]; intros stack; [reflexivity |].
  cbn [scopes].
  destruct (g_directive (m_groups m)) as [o | |] eqn:Ed.
  - rewrite (scan_open classes source m ms stack o Ed). apply IH.
  - destruct stack as [| fr st].
    + rewrite scan_cons, loop_body_unmatched by (left; exact Ed).
      reflexivity.
    + rewrite scan_cons, (loop_body_else classes source m fr st Ed).
      cbn [emitted]. unfold scope_run. cbn [sc_frame sc_stack sc_close].
      unfold bind.
      destruct (scope_emission classes source fr st m) as [ys [e | []]];
        cbn [result yielded ret].
      * rewrite app_nil_r. reflexivity.
      * rewrite app_nil_r, IH. reflexivity.
  - destruct stack as [| fr st].
    + rewrite scan_cons, loop_body_unmatched by (right; exact Ed).
      reflexivity.
    + rewrite scan_cons, (loop_body_endif classes source m fr st Ed).
      cbn [emitted]. unfold scope_run. cbn [sc_frame sc_stack sc_close].
      unfold bind.
      destruct (scope_emission classes source fr st m) as [ys [e | []]];
        cbn [result yielded ret].
      * rewrite app_nil_r. reflexivity.
      * rewrite app_nil_r, IH. reflexivity.
Qed.

Lemma preprocess_yields (classes : list cls) (source : text) :
  yielded (preprocess_c_source_code classes source)
  = yielded (scan classes source (finditer directive_pattern source) []).
Proof.
  rewrite preprocess_unfold. unfold bind.
  destruct (result (scan classes source (finditer directive_pattern source) []))
    as [e | [| fr st]]; cbn [yielded ret raise];
    rewrite ?app_nil_r; reflexivity.
Qed.

Lemma emitted_all_ok (classes : list cls) (source : text)
  (scs : list scope) :
  Forall (fun sc => result (scope_region classes source sc) = inr tt) scs ->
  emitted classes source scs
  = flat_map (fun sc => yielded (scope_run classes source sc)) scs.
Proof.
  induction 1 as [| sc scs Hsc _ IH]; [reflexivity |].
  cbn [emitted flat_map]. unfold scope_run at 2.
  rewrite scope_emission_result. unfold scope_region in Hsc.
  rewrite Hsc, IH. reflexivity.
Qed.

(** C1, amended: extractors run only over the scopes of the frames that are
    popped, so text outside every block is never scanned.  What the
    generator yields is, whatever the source and the extractors, exactly
    what the scopes closed by its directives yield, one after the other in
    the order of their closing directives, up to the first scope on which
    an extractor raises; nothing is yielded before, between or behind
    them.  A scope yields the entities that the registered extractors find
    between the end of its opening directive and the start of its closing
    one, between two guard lines at the offsets of these two directives,
    and nothing at all when they find none.  When the popped frame was the
    only one on the stack (an outermost block) both guard lines are empty;
    under another open block they are the directive line and its
    [#endif] line.  A text with no directive yields nothing. *)
Theorem C1_only_closed_scopes_are_scanned
  (classes : list cls) (source : text) :
  let scs := scopes (finditer directive_pattern source) [] in
  yielded (preprocess_c_source_code classes source)
  = emitted classes source scs
  /\ (Forall (fun sc => result (scope_region classes source sc) = inr tt) scs
      -> yielded (preprocess_c_source_code classes source)
         = flat_map (fun sc => yielded (scope_run classes source sc)) scs)
  /\ (forall sc,
        result (scope_region classes source sc) = inr tt ->
        yielded (scope_run classes source sc)
        = match sc_stack sc with
          | [] =>
              guarded (f_start (sc_frame sc)) []
                (yielded (scope_region classes source sc))
                (m_start (sc_close sc)) []
          | _ :: _ =>
              guarded (f_start (sc_frame sc))
                (lit "#" ++ opener_name (f_directive (sc_frame sc))
                 ++ lit " " ++ f_param (sc_frame sc))
                (yielded (scope_region classes source sc))
                (m_start (sc_close sc))
                (match f_directive (sc_frame sc) with
                 | If =>
                     lit "#endif /* " ++ f_param (sc_frame sc) ++ lit " */"
                 | Ifdef =>
                     lit "#endif /* defined(" ++ f_param (sc_frame sc)
                     ++ lit ") */"
                 | Ifndef =>
                     lit "#endif /* !defined(" ++ f_param (sc_frame sc)
                     ++ lit ") */"
                 end)
          end)
  /\ (finditer directive_pattern source = [] ->
      preprocess_c_source_code classes source = Run [] (inr tt)).
Proof.
  intros scs.
  assert (Hy : yielded (preprocess_c_source_code classes source)
               = emitted classes source scs).
  { rewrite preprocess_yields. apply scan_emitted. }
  split; [exact Hy |]. split; [| split].
  - intros Hok. rewrite Hy. apply emitted_all_ok. exact Hok.
  - intros sc Hok. unfold scope_run, scope_emission, scope_region in *.
    rewrite (emission_guarded _ _ _ _ _ Hok).
    destruct (sc_stack sc); reflexivity.
  - intros Hd. rewrite preprocess_unfold, Hd. reflexivity.
Qed.

(** An outermost block with text before it and behind it: only the enum
    inside the block is yielded. *)
Lemma C1_only_closed_scopes_witness :
  let source :=
    lines [lit "enum x { X };"; lit "#ifndef H"; lit "enum a { A };";
           lit "#endif"; lit "enum y { Y };"] in
  scopes (finditer directive_pattern source) []
  = [Scope (Frame Ifndef (lit "H") 14 23) []
       (RMatch 38 44 (DGroups Endif []))]
  /\ yielded (preprocess_c_source_code registered source)
     = [(14, Line []);
        (24, Obj (IEnum (MkEnum (lit "enum a") (lit "a") (lit "A ")
                           (24, 37))));
        (38, Line [])].
Proof.
  intros source.
  assert (Hs : scopes (finditer directive_pattern source) []
               = [Scope (Frame Ifndef (lit "H") 14 23) []
                    (RMatch 38 44 (DGroups Endif []))])
    by (vm_compute; reflexivity).
  split; [exact Hs |].
  rewrite (proj1 (proj2 (C1_only_closed_scopes_are_scanned registered
                           source))).
  - rewrite Hs. vm_compute. reflexivity.
  - rewrite Hs. constructor; [vm_compute; reflexivity | constructor].
Defined.




(** ** The text generated for an entity *)

(** C8: for [typedef enum { RED, GREEN, BLUE } Color;] the extractor finds
    one enum, named [Color] with prototype [Color]; its lookup table holds
    exactly the entries [[RED] = "RED",], [[GREEN] = "GREEN",] and
    [[BLUE] = "BLUE",] in that order, and the generated function returns
    the sentinel "UNKOWN_VAULE" in the branch taken for an index past the
    table or a NULL slot. *)
Theorem C8_color_enum_translation :
  let source := lit "typedef enum { RED, GREEN, BLUE } Color;" in
  let q := [dquote] in
  exists e,
    EnumDefinition_extract source 0 (length source)
    = Run [IEnum e] (inr tt)
    /\ e_name e = lit "Color"
    /\ e_prototype e = lit "Color"
    /\ translation_table_of_body (e_body e)
       = [lit "        [RED] = " ++ q ++ lit "RED" ++ q ++ lit ",";
          lit "        [GREEN] = " ++ q ++ lit "GREEN" ++ q ++ lit ",";
          lit "        [BLUE] = " ++ q ++ lit "BLUE" ++ q ++ lit ","]
    /\ generate_translation_function e
       = lines
           [lit "const char *Color_str( Color in )";
            lit "{";
            lit "    const char * in_to_str[]=";
            lit "    {";
            lit "        [RED] = " ++ q ++ lit "RED" ++ q ++ lit ",";
            lit "        [GREEN] = " ++ q ++ lit "GREEN" ++ q ++ lit ",";
            lit "        [BLUE] = " ++ q ++ lit "BLUE" ++ q ++ lit ",";
            lit "    };";
            [];
            lit "    if( in > ( sizeof( in_to_str )/sizeof( in_to_str[0]) - 1 ) ||";
            lit "        in_to_str[ in ] == NULL )";
            lit "    {";
            lit "        return " ++ q ++ lit "UNKOWN_VAULE" ++ q ++ lit ";";
            lit "    }";
            lit "    return in_to_str[ in ];";
            lit "}"].
Proof.
  exists (MkEnum (lit "Color") (lit "Color") (lit "RED, GREEN, BLUE ") (8, 40)).
  repeat split; vm_compute; reflexivity.
Qed.

(** Every match [finditer] reports is a match of the pattern somewhere. *)
Lemma finditer_loop_In {G} (m : matcher G) (s : text) :
  forall bol pos skip x,
    In x (finditer_loop m bol pos skip s) ->
    exists bol' s' len, m bol' s' = Some (m_groups x, len).
Proof.
  induction s as [| c s IH]; intros bol pos skip x Hx; simpl in Hx.
  - contradiction.
  - destruct skip as [| k].
    + destruct (m bol (c :: s)) as [[g len] |] eqn:E.
      * destruct Hx as [<- | Hx].
        -- exists bol, (c :: s), len. exact E.
        -- eapply IH; eassumption.
      * eapply IH; eassumption.
    + eapply IH; eassumption.
Qed.

Lemma span_while_forallb (p : ascii -> bool) (s a b : text) :
  span_while p s = (a, b) -> forallb p a = true.
Proof.
  revert a b. induction s as [| c s IH]; intros a b H; simpl in H.
  - inversion H. reflexivity.
  - destruct (p c) eqn:Ep.
    + destruct (span_while p s) as [a' b'] eqn:E. inversion H; subst.
      simpl. rewrite Ep. eapply IH. reflexivity.
    + inversion H. reflexivity.
Qed.

(** The name group of a signature-algorithm match: the fixed prefix and a
    non-empty run of word characters. *)
Lemma sig_alg_pattern_name (bol : bool) (s : text) (g : sig_groups)
  (len : nat) :
  sig_alg_pattern bol s = Some (g, len) ->
  exists suffix,
    suffix <> [] /\ forallb is_word suffix = true
    /\ g_name g = sig_prefix ++ suffix.
Proof.
  unfold sig_alg_pattern. intros H.
  destruct (expect (lit "#define") s) as [s1 |]; [| discriminate].
  destruct (span_while is_space s1) as [ws1 s2].
  destruct (expect sig_prefix s2) as [s3 |]; [| discriminate].
  destruct (span_while is_word s3) as [w s4] eqn:Ew.
  destruct (span_while is_space s4) as [ws2 s5].
  destruct s5 as [| z [| x s6]]; try discriminate.
  destruct (span_while is_hex s6) as [h s7].
  destruct (nonempty ws1 && nonempty w && nonempty ws2 && Ascii.eqb z "0"
            && (Ascii.eqb x "x" || Ascii.eqb x "X") && nonempty h
            && at_eol s7) eqn:Ec; [| discriminate].
  inversion H; subst. exists w. repeat split.
  - destruct w; [| discriminate].
    rewrite andb_false_r in Ec. simpl in Ec. discriminate.
  - eapply span_while_forallb. exact Ew.
Qed.

Lemma skipn_app_exact {A} (a b : list A) : skipn (length a) (a ++ b) = b.
Proof. induction a; simpl; auto. Qed.

(** C9: all the signature-algorithm definitions matched in a region make
    one entity (none when nothing matches); its text is one switch with, for
    each macro in source order, a case on the macro name that returns the
    lower-cased name without the prefix MBEDTLS_TLS1_3_SIG_, and after the
    switch the sentinel "UNKOWN". *)
Theorem C9_signature_algorithm_group
  (source : text) (st en : nat) (m0 : rmatch sig_groups)
  (rest : list (rmatch sig_groups)) :
  finditer_in sig_alg_pattern source st en = m0 :: rest ->
  let d := MkSig (m0 :: rest) in
  let q := [dquote] in
  SignatureAlgorithmDefinition_extract source st en = Run [ISig d] (inr tt)
  /\ (exists suffixes,
         map (fun m => g_name (m_groups m)) (m0 :: rest)
         = map (fun x => lit "MBEDTLS_TLS1_3_SIG_" ++ x) suffixes
         /\ Forall (fun x => x <> [] /\ forallb is_word x = true) suffixes
         /\ SignatureAlgorithmDefinition_str d
            = lit "const char *mbedtls_ssl_sig_alg_to_str( uint16_t in )"
              ++ [nl] ++ lit "{" ++ [nl]
              ++ lit "    switch( in )" ++ [nl]
              ++ lit "    {" ++ [nl]
              ++ join [nl]
                   (map (fun x =>
                           [tab] ++ lit "case MBEDTLS_TLS1_3_SIG_" ++ x
                           ++ lit ":" ++ [nl]
                           ++ [tab] ++ lit "    return " ++ q ++ lower x ++ q
                           ++ lit ";") suffixes)
              ++ [nl] ++ lit "    };" ++ [nl] ++ [nl]
              ++ lit "    return " ++ q ++ lit "UNKOWN" ++ q ++ lit ";"
              ++ [nl] ++ lit "}").
Proof.
  intros Hm d q. split.
  - unfold SignatureAlgorithmDefinition_extract. rewrite Hm. reflexivity.
  - assert (Hall : forall m, In m (m0 :: rest) ->
                     exists suffix,
                       suffix <> [] /\ forallb is_word suffix = true
                       /\ g_name (m_groups m) = sig_prefix ++ suffix).
    { intros m Hin. rewrite <- Hm in Hin. unfold finditer_in in Hin.
      apply finditer_loop_In in Hin. destruct Hin as (b & s' & len & Hp).
      eapply sig_alg_pattern_name. exact Hp. }
    clear Hm. unfold d. clear d.
    generalize dependent (m0 :: rest). intros l Hall.
    assert (Hs : exists suffixes,
               map (fun m => g_name (m_groups m)) l
               = map (fun x => sig_prefix ++ x) suffixes
               /\ Forall (fun x => x <> [] /\ forallb is_word x = true)
                    suffixes).
    { induction l as [| m l IH].
      - exists []. split; [reflexivity | constructor].
      - destruct IH as (sfx & Hmap & Hfa).
        { intros m' Hin. apply Hall. right. exact Hin. }
        destruct (Hall m (or_introl eq_refl)) as (x & Hne & Hw & Hn).
        exists (x :: sfx). split.
        + simpl. rewrite Hn, Hmap. reflexivity.
        + constructor; [split; assumption | assumption]. }
    destruct Hs as (sfx & Hmap & Hfa). exists sfx.
    split; [exact Hmap |]. split; [exact Hfa |].
    unfold SignatureAlgorithmDefinition_str. cbn [s_definitions].
    rewrite <- (map_map (fun m => g_name (m_groups m)) sig_case), Hmap.
    rewrite map_map.
    replace (map (fun x => sig_case (sig_prefix ++ x)) sfx)
      with (map (fun x =>
                   [tab] ++ lit "case MBEDTLS_TLS1_3_SIG_" ++ x
                   ++ lit ":" ++ [nl]
                   ++ [tab] ++ lit "    return " ++ q ++ lower x ++ q
                   ++ lit ";") sfx).
    + unfold q. rewrite <- ?app_assoc. reflexivity.
    + apply map_ext. intros x. unfold sig_case.
      rewrite skipn_app_exact. unfold q.
      rewrite <- ?app_assoc. reflexivity.
Qed.

Definition two_sig_algs : text :=
  lines [lit "#define MBEDTLS_TLS1_3_SIG_FOO 0x01";
         lit "#define MBEDTLS_TLS1_3_SIG_BAR_BAZ 0x02"].

Definition two_sig_algs_matches : list (rmatch sig_groups) :=
  [RMatch 0 35 (SigGroups (lit "MBEDTLS_TLS1_3_SIG_FOO") (lit "0x01"));
   RMatch 36 75 (SigGroups (lit "MBEDTLS_TLS1_3_SIG_BAR_BAZ") (lit "0x02"))].

Lemma C9_signature_algorithm_group_witness :
  SignatureAlgorithmDefinition_extract two_sig_algs 0 (length two_sig_algs)
  = Run [ISig (MkSig two_sig_algs_matches)] (inr tt)
  /\ SignatureAlgorithmDefinition_str (MkSig two_sig_algs_matches)
     = lit "const char *mbedtls_ssl_sig_alg_to_str( uint16_t in )" ++ [nl]
       ++ lit "{" ++ [nl]
       ++ lit "    switch( in )" ++ [nl]
       ++ lit "    {" ++ [nl]
       ++ [tab] ++ lit "case MBEDTLS_TLS1_3_SIG_FOO:" ++ [nl]
       ++ [tab] ++ lit "    return " ++ [dquote] ++ lit "foo" ++ [dquote]
       ++ lit ";" ++ [nl]
       ++ [tab] ++ lit "case MBEDTLS_TLS1_3_SIG_BAR_BAZ:" ++ [nl]
       ++ [tab] ++ lit "    return " ++ [dquote] ++ lit "bar_baz" ++ [dquote]
       ++ lit ";" ++ [nl]
       ++ lit "    };" ++ [nl] ++ [nl]
       ++ lit "    return " ++ [dquote] ++ lit "UNKOWN" ++ [dquote] ++ lit ";"
       ++ [nl] ++ lit "}".
Proof.
  destruct (C9_signature_algorithm_group two_sig_algs 0 (length two_sig_algs)
              (RMatch 0 35
                 (SigGroups (lit "MBEDTLS_TLS1_3_SIG_FOO") (lit "0x01")))
              [RMatch 36 75
                 (SigGroups (lit "MBEDTLS_TLS1_3_SIG_BAR_BAZ") (lit "0x02"))])
    as [Hx _].
  - vm_compute. reflexivity.
  - split; [exact Hx | vm_compute; reflexivity].
Defined.

(** ** The emitter: first item per offset, ascending offsets *)

(** The first item yielded at offset [k]. *)
Fixpoint first_at (k : nat) (ys : list (nat * item)) : option item :=
  match ys with
  | [] => None
  | (k', it) :: ys' => if k' =? k then Some it else first_at k ys'
  end.

(** [definitions[k]], when the key is there. *)
Fixpoint lookup (k : nat) (d : dict) : option definition :=
  match d with
  | [] => None
  | (k', v) :: d' => if k' =? k then Some v else lookup k d'
  end.

Definition key_lt (a b : nat * definition) : Prop := fst a < fst b.

Lemma first_at_app k ys zs :
  first_at k (ys ++ zs) =
  match first_at k ys with
  | Some it => Some it
  | None => first_at k zs
  end.
Proof.
  induction ys as [| [k' it] ys IH]; simpl; [reflexivity |].
  destruct (k' =? k); [reflexivity | exact IH].
Qed.

Lemma lookup_app k d e :
  lookup k (d ++ e) =
  match lookup k d with
  | Some v => Some v
  | None => lookup k e
  end.
Proof.
  induction d as [| [k' v] d IH]; simpl; [reflexivity |].
  destruct (k' =? k); [reflexivity | exact IH].
Qed.

Lemma dict_mem_lookup k d :
  dict_mem k d = match lookup k d with Some _ => true | None => false end.
Proof.
  induction d as [| [k' v] d IH]; simpl; [reflexivity |].
  destruct (k' =? k); [reflexivity | exact IH].
Qed.



(** The dict after the loop: a key keeps the value it had, and a new key
    gets the first item yielded at it. *)
Lemma collect_lookup ys : forall d k,
  lookup k (collect ys d) =
  match lookup k d with
  | Some v => Some v
  | None => option_map definition_of (first_at k ys)
  end.
Proof.
  induction ys as [| [start inst] ys IH]; intros d k; simpl.
  - destruct (lookup k d); reflexivity.
  - rewrite dict_mem_lookup.
    destruct (lookup start d) as [v0 |] eqn:Es.
    + rewrite IH. destruct (lookup k d) eqn:Ek; [reflexivity |].
      destruct (start =? k) eqn:E; [| reflexivity].
      apply Nat.eqb_eq in E. subst. congruence.
    + rewrite IH, lookup_app. destruct (lookup k d) eqn:Ek; [reflexivity |].
      simpl. destruct (start =? k); reflexivity.
Qed.


Lemma insert_sorted_In kv l x :
  In x (insert_sorted kv l) <-> x = kv \/ In x l.
Proof.
  induction l as [| y l IH]; simpl.
  - intuition.
  - destruct (fst kv <=? fst y); simpl; [intuition |].
    rewrite IH. intuition.
Qed.

Lemma sorted_In d x : In x (sorted d) <-> In x d.
Proof.
  induction d as [| y d IH]; simpl; [tauto |].
  rewrite insert_sorted_In, IH. intuition.
Qed.

Lemma insert_sorted_sorted kv l :
  StronglySorted key_lt l -> ~ In (fst kv) (map fst l) ->
  StronglySorted key_lt (insert_sorted kv l).
Proof.
  induction l as [| y l IH]; simpl; intros Hs Hni.
  - constructor; constructor.
  - inversion Hs as [| ? ? Hs' Hall]; subst.
    destruct (fst kv <=? fst y) eqn:E.
    + apply Nat.leb_le in E.
      assert (Hlt : fst kv < fst y) by (assert (fst y <> fst kv) by tauto; lia).
      constructor; [exact Hs |].
      constructor; [exact Hlt |].
      eapply Forall_impl; [| exact Hall]. unfold key_lt. intros; lia.
    + apply Nat.leb_gt in E. constructor.
      * apply IH; [exact Hs' | tauto].
      * apply Forall_forall. intros x Hx.
        apply (proj1 (insert_sorted_In _ _ _)) in Hx.
        destruct Hx as [-> | Hx].
        -- exact E.
        -- rewrite Forall_forall in Hall. apply Hall. exact Hx.
Qed.

Lemma sorted_sorted d :
  NoDup (map fst d) -> StronglySorted key_lt (sorted d).
Proof.
  induction d as [| y d IH]; simpl; intros Hnd; [constructor |].
  inversion Hnd as [| ? ? Hni Hnd']; subst.
  apply insert_sorted_sorted; [apply IH; exact Hnd' |].
  intros Hin. apply Hni. apply in_map_iff in Hin.
  destruct Hin as (x & Hx & Hin). apply (proj1 (sorted_In _ _)) in Hin.
  rewrite <- Hx. apply in_map. exact Hin.
Qed.

Lemma sorted_NoDup d :
  NoDup (map fst d) -> NoDup (map fst (sorted d)).
Proof.
  intros Hnd. apply sorted_sorted in Hnd.
  induction Hnd as [| x l Hs IH Hall]; simpl; constructor; [| exact IH].
  intros Hin. apply in_map_iff in Hin. destruct Hin as (y & Hy & Hin).
  rewrite Forall_forall in Hall. specialize (Hall y Hin).
  unfold key_lt in Hall. lia.
Qed.





(** ** remove_c_comments *)

(** C7, refuted as stated: in "// a /*", a carriage return, "*/" the block
    comment is removed first (the line comment cannot end before a carriage
    return), and what is left, "// a ", is a line comment for the second
    pass. *)
Lemma C7_not_idempotent_with_carriage_return :
  let t := lit "// a /*" ++ [cr] ++ lit "*/" in
  remove_c_comments t = lit "// a "
  /\ remove_c_comments (remove_c_comments t) = []
  /\ remove_c_comments (remove_c_comments t) <> remove_c_comments t.
Proof.
  intros t. split; [| split].
  - vm_compute. reflexivity.
  - vm_compute. reflexivity.
  - vm_compute. discriminate.
Qed.

Section SubLoop.

Variables (G : Type) (m : matcher G) (repl : G -> text -> text).

(** The pattern does not look at what precedes the position. *)
Hypothesis m_no_anchor : forall b b' s, m b s = m b' s.

Lemma sub_loop_bol (s : text) : forall b b' k,
  sub_loop m repl b k s = sub_loop m repl b' k s.
Proof.
  induction s as [| c s IH]; intros b b' k; simpl; [reflexivity |].
  destruct k; [| reflexivity].
  rewrite (m_no_anchor b b'). reflexivity.
Qed.

Lemma sub_loop_skip (s : text) : forall b k,
  sub_loop m repl b k s = sub_loop m repl true 0 (skipn k s).
Proof.
  induction s as [| c s IH]; intros b k.
  - destruct k; reflexivity.
  - destruct k as [| k].
    + apply sub_loop_bol.
    + simpl. apply IH.
Qed.

Lemma sub_cons (c : ascii) (s : text) :
  sub m repl (c :: s) =
  match m true (c :: s) with
  | Some (g, len) =>
      repl g (firstn len (c :: s)) ++ sub m repl (skipn (len - 1) s)
  | None => c :: sub m repl s
  end.
Proof.
  unfold sub. simpl. destruct (m true (c :: s)) as [[g len] |].
  - rewrite sub_loop_skip. reflexivity.
  - rewrite (sub_loop_bol s _ true 0). reflexivity.
Qed.

End SubLoop.

Lemma remove_nil : remove_c_comments [] = [].
Proof. reflexivity. Qed.

Lemma remove_cons (c : ascii) (s : text) :
  remove_c_comments (c :: s) =
  match string_or_comment true (c :: s) with
  | Some (GString, len) =>
      firstn len (c :: s) ++ remove_c_comments (skipn (len - 1) s)
  | Some (GComment, len) => remove_c_comments (skipn (len - 1) s)
  | None => c :: remove_c_comments s
  end.
Proof.
  unfold remove_c_comments. rewrite sub_cons by reflexivity.
  destruct (string_or_comment true (c :: s)) as [[[|] len] |]; reflexivity.
Qed.

Lemma text_strong_ind (P : text -> Prop) :
  (forall s, (forall t, length t < length s -> P t) -> P s) ->
  forall s, P s.
Proof.
  intros H s. remember (length s) as n eqn:En.
  revert s En. induction n as [n IH] using lt_wf_ind.
  intros s En. apply H. intros t Ht. apply (IH (length t)); [lia | reflexivity].
Qed.

Lemma find_char_split (c : ascii) (r : text) : forall i,
  find_char c r = Some i ->
  exists pre post, r = pre ++ c :: post /\ length pre = i /\ ~ In c pre.
Proof.
  induction r as [| d r IH]; intros i H; simpl in H; [discriminate |].
  destruct (Ascii.eqb d c) eqn:E.
  - apply Ascii.eqb_eq in E. subst d. inversion H; subst.
    exists [], r. repeat split. intros [].
  - destruct (find_char c r) as [j |]; [| discriminate].
    inversion H; subst. destruct (IH j eq_refl) as (pre & post & -> & <- & Hni).
    exists (d :: pre), post. repeat split. intros [Hd | Hd]; [| tauto].
    subst. rewrite Ascii.eqb_refl in E. discriminate.
Qed.

Lemma find_char_app (c : ascii) (pre post : text) :
  ~ In c pre -> find_char c (pre ++ c :: post) = Some (length pre).
Proof.
  induction pre as [| d pre IH]; intros Hni; simpl.
  - rewrite Ascii.eqb_refl. reflexivity.
  - destruct (Ascii.eqb d c) eqn:E.
    + apply Ascii.eqb_eq in E. subst. exfalso. apply Hni. left. reflexivity.
    + rewrite IH; [reflexivity |]. intros H. apply Hni. right. exact H.
Qed.

Lemma find_char_None (c : ascii) (r : text) :
  ~ In c r -> find_char c r = None.
Proof.
  induction r as [| d r IH]; intros Hni; simpl; [reflexivity |].
  destruct (Ascii.eqb d c) eqn:E.
  - apply Ascii.eqb_eq in E. subst. exfalso. apply Hni. left. reflexivity.
  - rewrite IH; [reflexivity |]. intros H. apply Hni. right. exact H.
Qed.

Lemma find_char_In (c : ascii) (r : text) :
  find_char c r = None -> ~ In c r.
Proof.
  induction r as [| d r IH]; simpl; intros H; [tauto |].
  destruct (Ascii.eqb d c) eqn:E; [discriminate |].
  destruct (find_char c r); [discriminate |].
  intros [Hd | Hd]; [subst; rewrite Ascii.eqb_refl in E; discriminate |].
  exact (IH eq_refl Hd).
Qed.

(** What a match of the comment pattern looks like. *)
Lemma soc_string b c s len :
  string_or_comment b (c :: s) = Some (GString, len) ->
  exists pre post,
    s = pre ++ c :: post /\ ~ In c pre /\ len = length pre + 2
    /\ (c = dquote \/ c = squote).
Proof.
  unfold string_or_comment. intros H.
  destruct (Ascii.eqb c dquote) eqn:Ed.
  - apply Ascii.eqb_eq in Ed. subst c.
    destruct (find_char dquote s) as [i |] eqn:Ef; [| discriminate].
    inversion H; subst.
    destruct (find_char_split _ _ _ Ef) as (pre & post & -> & <- & Hni).
    exists pre, post. repeat split; auto.
  - destruct (Ascii.eqb c squote) eqn:Es.
    + apply Ascii.eqb_eq in Es. subst c.
      destruct (find_char squote s) as [i |] eqn:Ef; [| discriminate].
      inversion H; subst.
      destruct (find_char_split _ _ _ Ef) as (pre & post & -> & <- & Hni).
      exists pre, post. repeat split; auto.
    + destruct (Ascii.eqb c "/"); [| discriminate].
      destruct s as [| d r]; [discriminate |].
      destruct (Ascii.eqb d "*").
      * destruct (find_close r); discriminate.
      * destruct (Ascii.eqb d "/"); [| discriminate].
        destruct (span_while not_eol r) as [bd rest].
        destruct (at_eol rest); discriminate.
Qed.

Lemma soc_comment_head b c s len :
  string_or_comment b (c :: s) = Some (GComment, len) -> c = "/"%char.
Proof.
  unfold string_or_comment. intros H.
  destruct (Ascii.eqb c dquote).
  { destruct (find_char dquote s); discriminate. }
  destruct (Ascii.eqb c squote).
  { destruct (find_char squote s); discriminate. }
  destruct (Ascii.eqb c "/") eqn:E; [| discriminate].
  apply Ascii.eqb_eq in E. exact E.
Qed.

Lemma soc_len_pos b s g len :
  string_or_comment b s = Some (g, len) -> 1 <= len.
Proof.
  unfold string_or_comment. intros H.
  destruct s as [| c s]; [discriminate |].
  destruct (Ascii.eqb c dquote).
  { destruct (find_char dquote s); inversion H; lia. }
  destruct (Ascii.eqb c squote).
  { destruct (find_char squote s); inversion H; lia. }
  destruct (Ascii.eqb c "/"); [| discriminate].
  destruct s as [| d r]; [discriminate |].
  destruct (Ascii.eqb d "*").
  { destruct (find_close r); inversion H; lia. }
  destruct (Ascii.eqb d "/"); [| discriminate].
  destruct (span_while not_eol r) as [bd rest].
  destruct (at_eol rest); inversion H; lia.
Qed.

(** ** remove_c_comments: what is kept and what is dropped *)

(** [subseq l1 l2]: [l1] is [l2] with some elements left out. *)
Inductive subseq {A : Type} : list A -> list A -> Prop :=
| subseq_nil : subseq [] []
| subseq_skip x l1 l2 : subseq l1 l2 -> subseq l1 (x :: l2)
| subseq_keep x l1 l2 : subseq l1 l2 -> subseq (x :: l1) (x :: l2).

Lemma subseq_refl {A} (l : list A) : subseq l l.
Proof. induction l; constructor; assumption. Qed.

Lemma subseq_app {A} (a b c d : list A) :
  subseq a b -> subseq c d -> subseq (a ++ c) (b ++ d).
Proof. intros H1 H2. induction H1; simpl; try constructor; assumption. Qed.

Lemma subseq_skipn {A} (k : nat) (l1 l2 : list A) :
  subseq l1 (skipn k l2) -> subseq l1 l2.
Proof.
  revert l2. induction k as [| k IH]; intros l2 H; [exact H |].
  destruct l2 as [| x l2]; [exact H |]. simpl in H.
  constructor. apply IH. exact H.
Qed.

Lemma subseq_length {A} (l1 l2 : list A) :
  subseq l1 l2 -> length l1 <= length l2.
Proof. induction 1; simpl; lia. Qed.

Lemma subseq_In {A} (l1 l2 : list A) (x : A) :
  subseq l1 l2 -> In x l1 -> In x l2.
Proof.
  induction 1; simpl; intros Hin; [exact Hin | right; auto |].
  destruct Hin; [left; assumption | right; auto].
Qed.

Lemma skipn_pred_cons {A} (len : nat) (c : A) (s : list A) :
  1 <= len -> skipn (len - 1) s = skipn len (c :: s).
Proof. intros H. destruct len; [lia |]. simpl. rewrite Nat.sub_0_r. reflexivity. Qed.

Lemma remove_subseq (t : text) : subseq (remove_c_comments t) t.
Proof.
  induction t as [t IH] using text_strong_ind.
  destruct t as [| c s]; [constructor |].
  rewrite remove_cons.
  destruct (string_or_comment true (c :: s)) as [[[|] len] |] eqn:E.
  - pose proof (soc_len_pos _ _ _ _ E) as Hl.
    rewrite <- (firstn_skipn len (c :: s)) at 2.
    apply subseq_app; [apply subseq_refl |].
    rewrite <- (skipn_pred_cons len c s Hl).
    apply IH. rewrite length_skipn. simpl. lia.
  - apply subseq_skip. apply subseq_skipn with (k := len - 1).
    apply IH. rewrite length_skipn. simpl. lia.
  - apply subseq_keep. apply IH. simpl. lia.
Qed.

(** Removing comments only leaves characters out: the result is the text
    with some characters dropped, in the same order, so it is never longer
    and holds no character the text did not hold. *)
Theorem remove_c_comments_only_drops (t : text) :
  subseq (remove_c_comments t) t
  /\ length (remove_c_comments t) <= length t
  /\ (forall x, In x (remove_c_comments t) -> In x t).
Proof.
  pose proof (remove_subseq t) as H. split; [exact H |]. split.
  - apply subseq_length. exact H.
  - intros x. apply subseq_In. exact H.
Qed.

(** A character at which neither a literal nor a comment can start. *)
Definition plain (c : ascii) : bool :=
  negb (Ascii.eqb c dquote || Ascii.eqb c squote || Ascii.eqb c "/").

Lemma soc_plain b c s : plain c = true -> string_or_comment b (c :: s) = None.
Proof.
  unfold plain, string_or_comment. intros H.
  destruct (Ascii.eqb c dquote); [discriminate |].
  destruct (Ascii.eqb c squote); [discriminate |].
  destruct (Ascii.eqb c "/"); [discriminate | reflexivity].
Qed.

Lemma remove_plain_app (pre s : text) :
  forallb plain pre = true ->
  remove_c_comments (pre ++ s) = pre ++ remove_c_comments s.
Proof.
  induction pre as [| c pre IH]; intros H; [reflexivity |].
  simpl in H. apply andb_prop in H. destruct H as [Hc Hp].
  simpl. rewrite remove_cons, (soc_plain _ _ _ Hc), (IH Hp). reflexivity.
Qed.

Lemma firstn_app_exact {A} (l1 l2 : list A) :
  firstn (length l1) (l1 ++ l2) = l1.
Proof.
  induction l1 as [| x l1 IH]; simpl; [destruct l2; reflexivity |].
  rewrite IH. reflexivity.
Qed.

Lemma remove_string (c : ascii) (pre post : text) :
  c = dquote \/ c = squote -> ~ In c pre ->
  remove_c_comments (c :: pre ++ c :: post)
  = c :: pre ++ c :: remove_c_comments post.
Proof.
  intros Hc Hni. rewrite remove_cons.
  assert (E : string_or_comment true (c :: pre ++ c :: post)
              = Some (GString, length pre + 2)).
  { unfold string_or_comment.
    destruct Hc as [-> | ->]; simpl; rewrite (find_char_app _ _ _ Hni);
      reflexivity. }
  rewrite E.
  replace (length pre + 2) with (S (length (pre ++ [c])))
    by (rewrite length_app; simpl; lia).
  replace (pre ++ c :: post) with ((pre ++ [c]) ++ post)
    by (rewrite <- app_assoc; reflexivity).
  cbn [firstn Nat.sub]. rewrite Nat.sub_0_r.
  rewrite firstn_app_exact, skipn_app_exact.
  simpl. rewrite <- app_assoc. reflexivity.
Qed.

(** A string or character literal is copied as it stands, comment markers
    inside it included, and the scan goes on behind its closing quote: with
    [c] a double or single quote that does not occur in [inner], the text
    [c inner c rest] becomes [c inner c] followed by [rest] without its
    comments. *)
Theorem remove_c_comments_keeps_literal (c : ascii) (inner rest : text)
  (Hquote : c = dquote \/ c = squote) (Hinner : ~ In c inner) :
  remove_c_comments (c :: inner ++ c :: rest)
  = c :: inner ++ c :: remove_c_comments rest.
Proof. apply remove_string; assumption. Qed.

Lemma remove_c_comments_keeps_literal_witness :
  remove_c_comments (dquote :: lit "/* a */ // b" ++ dquote :: lit " /* c */")
  = dquote :: lit "/* a */ // b" ++ dquote :: lit " ".
Proof.
  apply (remove_c_comments_keeps_literal dquote (lit "/* a */ // b")
           (lit " /* c */")).
  - left. reflexivity.
  - vm_compute. intros H.
    repeat (destruct H as [H | H]; [discriminate H |]). exact H.
Defined.

Lemma find_close_cons2 (c d : ascii) (s : text) :
  find_close (c :: d :: s)
  = if Ascii.eqb c "*" && Ascii.eqb d "/" then Some 0
    else option_map S (find_close (d :: s)).
Proof. reflexivity. Qed.

Lemma find_close_app (body post : text) :
  find_close (body ++ ["*"%char]) = None ->
  find_close (body ++ "*"%char :: "/"%char :: post) = Some (length body).
Proof.
  induction body as [| c b IH]; intros H; [reflexivity |].
  destruct b as [| d b].
  - cbn [app]. rewrite find_close_cons2. cbn [app] in *.
    rewrite andb_false_r. reflexivity.
  - cbn [app] in *. rewrite find_close_cons2 in *.
    destruct (Ascii.eqb c "*" && Ascii.eqb d "/"); [discriminate |].
    destruct (find_close (d :: b ++ ["*"%char])); [discriminate |].
    rewrite (IH eq_refl). reflexivity.
Qed.

(** A block comment is dropped up to the first close marker behind its
    opening: when the body holds no close marker, none straddling its end
    included, the text [/* body */ rest] becomes [rest] without its
    comments.  The body may span lines and hold quotes or slashes. *)
Theorem remove_c_comments_drops_block_comment (body rest : text)
  (Hbody : find_close (body ++ lit "*") = None) :
  remove_c_comments (lit "/*" ++ body ++ lit "*/" ++ rest)
  = remove_c_comments rest.
Proof.
  cbn [lit app]. change (lit "/*" ++ body ++ lit "*/" ++ rest)
    with ("/"%char :: "*"%char :: body ++ "*"%char :: "/"%char :: rest).
  rewrite remove_cons.
  assert (E : string_or_comment true
                ("/"%char :: "*"%char :: body ++ "*"%char :: "/"%char :: rest)
              = Some (GComment, length body + 4)).
  { unfold string_or_comment. cbn [Ascii.eqb]. simpl.
    rewrite (find_close_app body rest Hbody). reflexivity. }
  rewrite E.
  replace (length body + 4 - 1)
    with (length ("*"%char :: body ++ ["*"%char; "/"%char]))
    by (simpl; rewrite length_app; simpl; lia).
  replace ("*"%char :: body ++ "*"%char :: "/"%char :: rest)
    with (("*"%char :: body ++ ["*"%char; "/"%char]) ++ rest)
    by (simpl; rewrite <- app_assoc; reflexivity).
  rewrite skipn_app_exact. reflexivity.
Qed.

Lemma remove_c_comments_drops_block_comment_witness :
  remove_c_comments
    (lit "/*" ++ (lit " a * b / c " ++ [nl] ++ lit " // d ") ++ lit "*/"
     ++ lit "int x;")
  = lit "int x;".
Proof.
  apply (remove_c_comments_drops_block_comment
           (lit " a * b / c " ++ [nl] ++ lit " // d ") (lit "int x;")).
  vm_compute. reflexivity.
Defined.

(** A block comment that is never closed is not a comment: its opening
    marker is copied and the scan goes on behind it. *)
Theorem remove_c_comments_keeps_unclosed_comment (rest : text)
  (Hopen : find_close rest = None) :
  remove_c_comments (lit "/*" ++ rest) = lit "/*" ++ remove_c_comments rest.
Proof.
  change (lit "/*" ++ rest) with ("/"%char :: "*"%char :: rest).
  rewrite remove_cons.
  assert (E : string_or_comment true ("/"%char :: "*"%char :: rest) = None).
  { unfold string_or_comment. simpl. rewrite Hopen. reflexivity. }
  rewrite E, remove_cons, soc_plain by reflexivity. reflexivity.
Qed.

Lemma remove_c_comments_keeps_unclosed_comment_witness :
  remove_c_comments (lit "/*" ++ lit " a // b")
  = lit "/*" ++ lit " a ".
Proof.
  apply (remove_c_comments_keeps_unclosed_comment (lit " a // b")).
  vm_compute. reflexivity.
Defined.

Lemma span_while_app (p : ascii -> bool) (a b : text) :
  forallb p a = true ->
  span_while p (a ++ b)
  = (a ++ fst (span_while p b), snd (span_while p b)).
Proof.
  induction a as [| c a IH]; intros H.
  - simpl. destruct (span_while p b); reflexivity.
  - simpl in H. apply andb_prop in H. destruct H as [Hc Ha].
    simpl. rewrite Hc, (IH Ha). reflexivity.
Qed.

Lemma soc_line_comment (body rest : text) :
  forallb not_eol body = true ->
  match rest with [] => True | c :: _ => not_eol c = false end ->
  string_or_comment true ("/"%char :: "/"%char :: body ++ rest)
  = if at_eol rest then Some (GComment, length body + 2) else None.
Proof.
  intros Hb Hr. unfold string_or_comment. simpl.
  rewrite (span_while_app _ _ rest Hb).
  destruct rest as [| c r]; simpl.
  - rewrite app_nil_r. reflexivity.
  - rewrite Hr. simpl. rewrite app_nil_r. reflexivity.
Qed.

Lemma remove_line_comment (body rest : text) :
  forallb not_eol body = true -> at_eol rest = true ->
  remove_c_comments ("/"%char :: "/"%char :: body ++ rest)
  = remove_c_comments rest.
Proof.
  intros Hb Hr. rewrite remove_cons, (soc_line_comment body rest Hb).
  - rewrite Hr.
    replace (length body + 2 - 1) with (length ("/"%char :: body))
      by (simpl; lia).
    change ("/"%char :: body ++ rest) with (("/"%char :: body) ++ rest).
    rewrite skipn_app_exact. reflexivity.
  - destruct rest as [| c r]; [exact I |]. simpl in Hr.
    apply Ascii.eqb_eq in Hr. subst c. reflexivity.
Qed.

(** A line comment is dropped up to the end of its line, and the line feed
    stays: when [body] holds no line feed and no carriage return, the text
    [// body], a line feed, [rest] becomes a line feed followed by [rest]
    without its comments, and [// body] at the end of the text becomes the
    empty text. *)
Theorem remove_c_comments_drops_line_comment (body rest : text)
  (Hbody : forallb not_eol body = true) :
  remove_c_comments (lit "//" ++ body ++ nl :: rest)
  = nl :: remove_c_comments rest
  /\ remove_c_comments (lit "//" ++ body) = [].
Proof.
  split.
  - change (lit "//" ++ body ++ nl :: rest)
      with ("/"%char :: "/"%char :: body ++ nl :: rest).
    rewrite (remove_line_comment body (nl :: rest) Hbody) by reflexivity.
    rewrite remove_cons, soc_plain by reflexivity. reflexivity.
  - pose proof (remove_line_comment body [] Hbody eq_refl) as H.
    rewrite app_nil_r in H. exact H.
Qed.

Lemma remove_c_comments_drops_line_comment_witness :
  remove_c_comments (lit "//" ++ lit " a /* b " ++ nl :: lit "x */")
  = nl :: lit "x */"
  /\ remove_c_comments (lit "//" ++ lit " a /* b ") = [].
Proof.
  apply (remove_c_comments_drops_line_comment (lit " a /* b ") (lit "x */")).
  vm_compute. reflexivity.
Defined.

(** Before a carriage return a line comment is not recognised (the pattern
    ends it only at a line feed or at the end of the text): when [body]
    holds no line end, no quote, no slash and no asterisk, the text
    [// body], a carriage return, [rest] keeps the whole comment. *)
Theorem remove_c_comments_keeps_line_comment_before_cr (body rest : text)
  (Hbody : forallb not_eol body = true)
  (Hplain : forallb plain body = true)
  (Hstar : ~ In "*"%char body) :
  remove_c_comments (lit "//" ++ body ++ cr :: rest)
  = lit "//" ++ body ++ cr :: remove_c_comments rest.
Proof.
  change (lit "//" ++ body ++ cr :: rest)
    with ("/"%char :: "/"%char :: body ++ cr :: rest).
  rewrite remove_cons, (soc_line_comment body (cr :: rest) Hbody)
    by reflexivity.
  cbn [at_eol]. change (Ascii.eqb cr nl) with false. cbv iota.
  rewrite remove_cons.
  assert (E : string_or_comment true ("/"%char :: body ++ cr :: rest) = None).
  { unfold string_or_comment. simpl.
    destruct body as [| d b]; [reflexivity |].
    simpl in Hplain. apply andb_prop in Hplain. destruct Hplain as [Hd _].
    cbn [app]. destruct (Ascii.eqb d "*") eqn:Es.
    - apply Ascii.eqb_eq in Es. exfalso. apply Hstar. left. auto.
    - unfold plain in Hd. destruct (Ascii.eqb d "/"); [| reflexivity].
      rewrite !orb_true_r in Hd. discriminate. }
  rewrite E, (remove_plain_app body (cr :: rest) Hplain).
  rewrite remove_cons, soc_plain by reflexivity.
  reflexivity.
Qed.

Lemma remove_c_comments_keeps_line_comment_before_cr_witness :
  remove_c_comments (lit "//" ++ lit " note" ++ cr :: nl :: lit "int x;")
  = lit "//" ++ lit " note" ++ cr :: nl :: lit "int x;".
Proof.
  apply (remove_c_comments_keeps_line_comment_before_cr (lit " note")
           (nl :: lit "int x;")).
  - vm_compute. reflexivity.
  - vm_compute. reflexivity.
  - vm_compute. intros H.
    repeat (destruct H as [H | H]; [discriminate H |]). exact H.
Defined.

Definition is_string_match (m : rmatch lastgroup) : Prop :=
  m_groups m = GString.

Definition is_comment_match (m : rmatch lastgroup) : Prop :=
  m_groups m = GComment.

Lemma string_or_comment_matches (l : list (rmatch lastgroup)) :
  Forall is_string_match l \/ Exists is_comment_match l.
Proof.
  induction l as [| m l [IH | IH]].
  - left. constructor.
  - destruct (m_groups m) eqn:E.
    + left. constructor; assumption.
    + right. apply Exists_cons_hd. exact E.
  - right. apply Exists_cons_tl. exact IH.
Qed.

Lemma sub_loop_no_comment (s : text) : forall b pos k,
  Forall is_string_match (finditer_loop string_or_comment b pos k s) ->
  sub_loop string_or_comment replacer b k s = skipn k s.
Proof.
  induction s as [| c s IH]; intros b pos k H.
  - destruct k; reflexivity.
  - destruct k as [| k]; cbn [finditer_loop sub_loop skipn] in *.
    + destruct (string_or_comment b (c :: s)) as [[g len] |] eqn:E.
      * inversion H as [| m l Hg Hl]; subst. unfold is_string_match in Hg.
        simpl in Hg. subst g. cbn [replacer].
        rewrite (IH _ _ _ Hl).
        rewrite (skipn_pred_cons len c s (soc_len_pos _ _ _ _ E)).
        apply firstn_skipn.
      * rewrite (IH _ _ _ H). reflexivity.
    + apply (IH _ _ _ H).
Qed.

Lemma sub_loop_length (s : text) : forall b k,
  length (sub_loop string_or_comment replacer b k s) <= length (skipn k s).
Proof.
  induction s as [| c s IH]; intros b k.
  - destruct k; simpl; lia.
  - destruct k as [| k]; cbn [sub_loop skipn].
    + destruct (string_or_comment b (c :: s)) as [[g len] |] eqn:E.
      * pose proof (soc_len_pos _ _ _ _ E) as Hl.
        pose proof (IH (Ascii.eqb c nl) (len - 1)) as IH'.
        rewrite length_skipn in IH'. rewrite length_app.
        destruct g; cbn [replacer]; [rewrite length_firstn |];
          simpl length in *; lia.
      * pose proof (IH (Ascii.eqb c nl) 0) as IH'. simpl in *. lia.
    + apply IH.
Qed.

Lemma sub_loop_comment_shorter (s : text) : forall b pos k,
  Exists is_comment_match (finditer_loop string_or_comment b pos k s) ->
  length (sub_loop string_or_comment replacer b k s) < length (skipn k s).
Proof.
  induction s as [| c s IH]; intros b pos k H.
  - simpl in H. inversion H.
  - destruct k as [| k]; cbn [finditer_loop sub_loop skipn] in *.
    + destruct (string_or_comment b (c :: s)) as [[g len] |] eqn:E.
      * pose proof (soc_len_pos _ _ _ _ E) as Hl.
        pose proof (sub_loop_length s (Ascii.eqb c nl) (len - 1)) as Hle.
        rewrite length_skipn in Hle. rewrite length_app.
        inversion H as [m l Hg | m l Hl']; subst.
        -- unfold is_comment_match in Hg. simpl in Hg. subst g.
           cbn [replacer]. simpl length in *. lia.
        -- apply IH in Hl'. rewrite length_skipn in Hl'.
           destruct g; cbn [replacer]; [rewrite length_firstn |];
             simpl length in *; lia.
      * apply IH in H. simpl in *. lia.
    + apply (IH _ _ _ H).
Qed.

(** The text comes back unchanged exactly when the pattern finds no comment
    in it, that is when every match it finds is a literal; as soon as one
    match is a comment the result is strictly shorter. *)
Theorem remove_c_comments_unchanged_iff_no_comment (t : text) :
  (remove_c_comments t = t
   <-> Forall is_string_match (finditer string_or_comment t))
  /\ (Exists is_comment_match (finditer string_or_comment t)
      -> length (remove_c_comments t) < length t).
Proof.
  assert (Hs : Exists is_comment_match (finditer string_or_comment t)
               -> length (remove_c_comments t) < length t).
  { intros H. apply sub_loop_comment_shorter in H. exact H. }
  split; [| exact Hs]. split.
  - intros Heq.
    destruct (string_or_comment_matches (finditer string_or_comment t))
      as [H | H]; [exact H |].
    apply Hs in H. rewrite Heq in H. lia.
  - intros H. apply sub_loop_no_comment in H. exact H.
Qed.

(** *** Close markers survive no removal *)

Lemma option_map_S_None (o : option nat) : option_map S o = None <-> o = None.
Proof. destruct o; simpl; split; intros H; try discriminate; reflexivity. Qed.

Lemma find_close_suffix (a b : text) :
  find_close (a ++ b) = None -> find_close b = None.
Proof.
  induction a as [| c a IH]; intros H; [exact H |].
  cbn [app] in H. destruct (a ++ b) as [| d l] eqn:E.
  - destruct a; [simpl in E; subst b; reflexivity | discriminate].
  - rewrite find_close_cons2 in H.
    destruct (Ascii.eqb c "*" && Ascii.eqb d "/"); [discriminate |].
    apply (proj1 (option_map_S_None _)) in H. apply IH. exact H.
Qed.

Lemma find_close_split (a : text) (q : ascii) (b : text) :
  find_close (a ++ q :: b) = None
  <-> find_close (a ++ [q]) = None /\ find_close (q :: b) = None.
Proof.
  induction a as [| c a IH].
  - simpl app. split; [intros H; split; [reflexivity | exact H] | tauto].
  - destruct a as [| d a]; cbn [app] in *; rewrite !find_close_cons2.
    + destruct (Ascii.eqb c "*" && Ascii.eqb q "/").
      * split; [discriminate | intros [H _]; discriminate].
      * rewrite !option_map_S_None. simpl (find_close [q]). tauto.
    + destruct (Ascii.eqb c "*" && Ascii.eqb d "/").
      * split; [discriminate | intros [H _]; discriminate].
      * rewrite !option_map_S_None. exact IH.
Qed.

Lemma find_close_cons_other (c : ascii) (s : text) :
  c <> "*"%char -> find_close s = None -> find_close (c :: s) = None.
Proof.
  intros Hc H. destruct s as [| d s]; [reflexivity |].
  rewrite find_close_cons2.
  destruct (Ascii.eqb c "*") eqn:E; [apply Ascii.eqb_eq in E; tauto |].
  cbn [andb]. rewrite H. reflexivity.
Qed.

Lemma in_skipn {A} (x : A) (k : nat) (l : list A) :
  In x (skipn k l) -> In x l.
Proof.
  intros H. rewrite <- (firstn_skipn k l). apply in_or_app. right. exact H.
Qed.

(** The first character stays first unless it opens a comment. *)
Lemma remove_head (d : ascii) (r : text) :
  d <> "/"%char -> exists u, remove_c_comments (d :: r) = d :: u.
Proof.
  intros Hd. rewrite remove_cons.
  destruct (string_or_comment true (d :: r)) as [[[|] len] |] eqn:E.
  - pose proof (soc_len_pos _ _ _ _ E) as Hl.
    destruct len as [| len]; [lia |]. cbn [firstn app]. eexists. reflexivity.
  - apply soc_comment_head in E. tauto.
  - eexists. reflexivity.
Qed.

Lemma remove_no_close (t : text) :
  find_close t = None -> find_close (remove_c_comments t) = None.
Proof.
  induction t as [t IH] using text_strong_ind. intros H.
  destruct t as [| c s]; [reflexivity |].
  rewrite remove_cons.
  destruct (string_or_comment true (c :: s)) as [[[|] len] |] eqn:E.
  - destruct (soc_string _ _ _ _ E) as (pre & post & -> & Hni & -> & Hq).
    replace (length pre + 2) with (S (length (pre ++ [c])))
      by (rewrite length_app; simpl; lia).
    cbn [firstn Nat.sub]. rewrite Nat.sub_0_r.
    replace (pre ++ c :: post) with ((pre ++ [c]) ++ post)
      by (rewrite <- app_assoc; reflexivity).
    rewrite firstn_app_exact, skipn_app_exact.
    change (c :: pre ++ c :: post) with ((c :: pre) ++ c :: post) in H.
    apply find_close_split in H. destruct H as [H1 H2].
    replace ((c :: pre ++ [c]) ++ remove_c_comments post)
      with ((c :: pre) ++ c :: remove_c_comments post)
      by (simpl; rewrite <- app_assoc; reflexivity).
    apply find_close_split. split; [exact H1 |].
    apply find_close_cons_other.
    + destruct Hq as [-> | ->]; discriminate.
    + apply IH.
      * simpl. rewrite length_app. simpl. lia.
      * apply (find_close_suffix [c]). exact H2.
  - apply IH.
    + rewrite length_skipn. simpl. lia.
    + apply (find_close_suffix (firstn (len - 1) s)).
      rewrite firstn_skipn. apply (find_close_suffix [c]). exact H.
  - pose proof (find_close_suffix [c] s H) as Hs.
    pose proof (IH s (Nat.lt_succ_diag_r _) Hs) as Hr.
    destruct (Ascii.eqb c "*") eqn:Ec.
    + apply Ascii.eqb_eq in Ec. subst c.
      destruct s as [| d r]; [reflexivity |].
      rewrite find_close_cons2 in H. simpl in H.
      destruct (Ascii.eqb d "/") eqn:Ed; [discriminate |].
      destruct (remove_head d r) as [u Hu].
      { intros ->. discriminate. }
      rewrite Hu in *. rewrite find_close_cons2. rewrite Ascii.eqb_refl. cbn [andb]. rewrite Ed.
      rewrite Hr. reflexivity.
    + apply find_close_cons_other; [| exact Hr].
      intros ->. discriminate.
Qed.

(** *** A second pass changes nothing on a text without carriage return *)

Lemma span_while_stop (p : ascii -> bool) (s : text) : forall a b,
  span_while p s = (a, b) ->
  match b with
  | [] => True
  | x :: _ => p x = false /\ In x s
  end.
Proof.
  induction s as [| c s IH]; intros a b H; simpl in H.
  - inversion H. exact I.
  - destruct (p c) eqn:Ep.
    + destruct (span_while p s) as [a' b'] eqn:E. inversion H; subst.
      specialize (IH _ _ eq_refl). destruct b; [exact I |].
      destruct IH as [Hx Hin]. split; [exact Hx | right; exact Hin].
    + inversion H; subst. split; [exact Ep | left; reflexivity].
Qed.

(** Without a carriage return a line comment always finds its end. *)
Lemma line_comment_ends (r : text) :
  ~ In cr r -> at_eol (snd (span_while not_eol r)) = true.
Proof.
  intros Hcr. destruct (span_while not_eol r) as [body rest] eqn:E.
  pose proof (span_while_stop _ _ _ _ E) as H. simpl.
  destruct rest as [| x rest]; [reflexivity |].
  destruct H as [Hx Hin]. simpl. unfold not_eol in Hx.
  destruct (Ascii.eqb x nl); [reflexivity |].
  rewrite orb_false_r in Hx. apply negb_false_iff in Hx.
  apply Ascii.eqb_eq in Hx. subst x. tauto.
Qed.

(** A character that is copied because nothing matches at it is copied
    again by a second pass. *)
Lemma soc_none_stable (c : ascii) (s : text) :
  ~ In cr s ->
  string_or_comment true (c :: s) = None ->
  string_or_comment true (c :: remove_c_comments s) = None.
Proof.
  intros Hcr H. unfold string_or_comment in *.
  destruct (Ascii.eqb c dquote).
  { destruct (find_char dquote s) eqn:Ef; [discriminate |].
    rewrite find_char_None; [reflexivity |].
    intros Hin. apply (find_char_In _ _ Ef).
    apply (subseq_In _ _ _ (remove_subseq s) Hin). }
  destruct (Ascii.eqb c squote).
  { destruct (find_char squote s) eqn:Ef; [discriminate |].
    rewrite find_char_None; [reflexivity |].
    intros Hin. apply (find_char_In _ _ Ef).
    apply (subseq_In _ _ _ (remove_subseq s) Hin). }
  destruct (Ascii.eqb c "/"); [| reflexivity].
  destruct s as [| d r]; [reflexivity |].
  destruct (Ascii.eqb d "*") eqn:Es.
  - apply Ascii.eqb_eq in Es. subst d.
    destruct (find_close r) eqn:Ef; [discriminate |].
    rewrite remove_cons, soc_plain by reflexivity.
    rewrite Ascii.eqb_refl, (remove_no_close r Ef). reflexivity.
  - destruct (Ascii.eqb d "/") eqn:Esl.
    + exfalso. assert (Hr : ~ In cr r) by (intros Hin; apply Hcr; right; auto).
      pose proof (line_comment_ends r Hr) as He.
      destruct (span_while not_eol r) as [body rest]. simpl in He.
      rewrite He in H. discriminate.
    + destruct (remove_head d r) as [u Hu].
      { intros ->. discriminate. }
      rewrite Hu, Es, Esl. reflexivity.
Qed.

Lemma remove_idempotent (t : text) :
  ~ In cr t ->
  remove_c_comments (remove_c_comments t) = remove_c_comments t.
Proof.
  induction t as [t IH] using text_strong_ind. intros Hcr.
  destruct t as [| c s]; [reflexivity |].
  rewrite remove_cons.
  destruct (string_or_comment true (c :: s)) as [[[|] len] |] eqn:E.
  - destruct (soc_string _ _ _ _ E) as (pre & post & -> & Hni & -> & Hq).
    replace (length pre + 2) with (S (length (pre ++ [c])))
      by (rewrite length_app; simpl; lia).
    cbn [firstn Nat.sub]. rewrite Nat.sub_0_r.
    replace (pre ++ c :: post) with ((pre ++ [c]) ++ post)
      by (rewrite <- app_assoc; reflexivity).
    rewrite firstn_app_exact, skipn_app_exact.
    replace ((c :: pre ++ [c]) ++ remove_c_comments post)
      with (c :: pre ++ c :: remove_c_comments post)
      by (simpl; rewrite <- app_assoc; reflexivity).
    rewrite (remove_string c pre _ Hq Hni).
    rewrite IH; [reflexivity | |].
    + simpl. rewrite length_app. simpl. lia.
    + intros Hin. apply Hcr. right. apply in_or_app. right. right. exact Hin.
  - apply IH.
    + rewrite length_skipn. simpl. lia.
    + intros Hin. apply Hcr. right. apply (in_skipn _ _ _ Hin).
  - assert (Hs : ~ In cr s) by (intros Hin; apply Hcr; right; exact Hin).
    rewrite remove_cons, (soc_none_stable c s Hs E).
    rewrite (IH s (Nat.lt_succ_diag_r _) Hs). reflexivity.
Qed.

(** On a text without carriage return a second pass of [remove_c_comments]
    changes nothing: what the first pass returns holds no comment the
    pattern would still match. *)
Theorem remove_c_comments_idempotent_without_cr (t : text)
  (Hcr : ~ In cr t) :
  remove_c_comments (remove_c_comments t) = remove_c_comments t
  /\ Forall is_string_match
       (finditer string_or_comment (remove_c_comments t)).
Proof.
  pose proof (remove_idempotent t Hcr) as H. split; [exact H |].
  destruct (string_or_comment_matches
              (finditer string_or_comment (remove_c_comments t)))
    as [Hf | He]; [exact Hf |].
  apply sub_loop_comment_shorter in He.
  change (sub_loop string_or_comment replacer true 0 (remove_c_comments t))
    with (remove_c_comments (remove_c_comments t)) in He.
  rewrite H in He. simpl in He. lia.
Qed.

Lemma remove_c_comments_idempotent_without_cr_witness :
  let t := lit "a /* b */ c // d" ++ [nl] ++ lit "e" in
  remove_c_comments (remove_c_comments t) = remove_c_comments t
  /\ Forall is_string_match
       (finditer string_or_comment (remove_c_comments t)).
Proof.
  intros t. apply (remove_c_comments_idempotent_without_cr t).
  vm_compute. intros H.
  repeat (destruct H as [H | H]; [discriminate H |]). exact H.
Defined.

(** ** preprocess_c_source_code: when the scan ends normally *)

(** The directives of a source, in the order of the scan. *)
Definition directives (source : text) : list directive :=
  map (fun m => g_directive (m_groups m)) (finditer directive_pattern source).

(** Block depth after a list of directives, from depth [d]; [None] when an
    [#else] or [#endif] comes at depth 0. *)
Fixpoint depth_after (ds : list directive) (d : nat) : option nat :=
  match ds with
  | [] => Some d
  | Open _ :: ds' => depth_after ds' (S d)
  | Else :: ds' =>
      match d with
      | O => None
      | S _ => depth_after ds' d
      end
  | Endif :: ds' =>
      match d with
      | O => None
      | S d' => depth_after ds' d'
      end
  end.

Lemma scan_depth (classes : list cls) (source : text)
  (ms : list (rmatch dgroups)) : forall stack stack',
  result (scan classes source ms stack) = inr stack' ->
  depth_after (map (fun m => g_directive (m_groups m)) ms) (length stack)
  = Some (length stack').
Proof.
  induction ms as [| m ms IH]; intros stack stack' H.
  - simpl in H. inversion H. reflexivity.
  - cbn [map depth_after].
    destruct (g_directive (m_groups m)) as [o | |] eqn:Ed.
    + rewrite (scan_open classes source m ms stack o Ed) in H.
      apply IH in H. exact H.
    + destruct stack as [| fr stack].
      * rewrite scan_cons, loop_body_unmatched in H by (left; exact Ed).
        discriminate H.
      * destruct (result (extract_all classes source (f_end fr) (m_start m)))
          as [e | []] eqn:Ex.
        -- rewrite scan_cons, (loop_body_else classes source m fr stack Ed)
             in H.
           unfold bind in H. rewrite scope_emission_result, Ex in H.
           discriminate H.
        -- rewrite (scan_else classes source m ms fr stack Ed Ex) in H.
           apply IH in H. exact H.
    + destruct stack as [| fr stack].
      * rewrite scan_cons, loop_body_unmatched in H by (right; exact Ed).
        discriminate H.
      * destruct (result (extract_all classes source (f_end fr) (m_start m)))
          as [e | []] eqn:Ex.
        -- rewrite scan_cons, (loop_body_endif classes source m fr stack Ed)
             in H.
           unfold bind in H. rewrite scope_emission_result, Ex in H.
           discriminate H.
        -- rewrite (scan_endif classes source m ms fr stack Ed Ex) in H.
           apply IH in H. exact H.
Qed.

(** Whatever the extractors are, the generator ends normally only on a
    balanced source: read in order, no [#else] and no [#endif] comes with no
    block open, and every block opened is closed by the end. *)
Theorem preprocess_success_is_balanced (classes : list cls) (source : text)
  (Hok : result (preprocess_c_source_code classes source) = inr tt) :
  depth_after (directives source) 0 = Some 0.
Proof.
  rewrite preprocess_unfold in Hok. unfold bind in Hok.
  destruct (result (scan classes source (finditer directive_pattern source) []))
    as [e | stack] eqn:Es; [discriminate Hok |].
  apply scan_depth in Es. unfold directives. simpl length in Es.
  rewrite Es. destruct stack; [reflexivity | discriminate Hok].
Qed.

Lemma preprocess_success_is_balanced_witness :
  let source := lines [lit "#ifdef A"; lit "#else"; lit "#endif"] in
  depth_after (directives source) 0 = Some 0.
Proof.
  intros source.
  apply (preprocess_success_is_balanced registered source).
  vm_compute. reflexivity.
Defined.

Lemma scan_result_by_depth (classes : list cls) (source : text)
  (Hext : forall st en, result (extract_all classes source st en) = inr tt)
  (ms : list (rmatch dgroups)) : forall stack,
  match depth_after (map (fun m => g_directive (m_groups m)) ms)
          (length stack) with
  | None => result (scan classes source ms stack) = inl CondDirectiveNotMatch
  | Some d =>
      exists stack', result (scan classes source ms stack) = inr stack'
                     /\ length stack' = d
  end.
Proof.
  induction ms as [| m ms IH]; intros stack.
  - simpl. exists stack. split; reflexivity.
  - cbn [map depth_after].
    destruct (g_directive (m_groups m)) as [o | |] eqn:Ed.
    + rewrite (scan_open classes source m ms stack o Ed).
      apply (IH (Frame o (g_param (m_groups m)) (m_start m) (m_end m)
                 :: stack)).
    + destruct stack as [| fr stack].
      * rewrite scan_cons, loop_body_unmatched by (left; exact Ed).
        reflexivity.
      * rewrite (scan_else classes source m ms fr stack Ed (Hext _ _)).
        cbn [result length]. apply (IH (else_frame fr m :: stack)).
    + destruct stack as [| fr stack].
      * rewrite scan_cons, loop_body_unmatched by (right; exact Ed).
        reflexivity.
      * rewrite (scan_endif classes source m ms fr stack Ed (Hext _ _)).
        cbn [result length]. apply (IH stack).
Qed.

(** The signature-algorithm extractor never raises and yields at most one
    object. *)
Lemma sig_extract_result (source : text) (st en : nat) :
  result (SignatureAlgorithmDefinition_extract source st en) = inr tt
  /\ length (yielded (SignatureAlgorithmDefinition_extract source st en)) <= 1.
Proof.
  unfold SignatureAlgorithmDefinition_extract.
  destruct (finditer_in sig_alg_pattern source st en); simpl; split;
    (reflexivity || lia).
Qed.

Lemma sig_only_never_raises (source : text) (st en : nat) :
  result (extract_all [SignatureAlgorithmDefinition_cls] source st en)
  = inr tt.
Proof.
  cbn [extract_all extract SignatureAlgorithmDefinition_cls].
  unfold bind. rewrite (proj1 (sig_extract_result source st en)).
  reflexivity.
Qed.

(** With extractors that do not raise on the source, how the generator ends
    is decided by the directives alone: it raises CondDirectiveNotMatch when
    an [#else] or [#endif] comes with no block open, AssertionError when a
    block is still open at the end, and ends normally otherwise. *)
Theorem preprocess_result_by_depth (classes : list cls) (source : text)
  (Hext : forall st en, result (extract_all classes source st en) = inr tt) :
  result (preprocess_c_source_code classes source)
  = match depth_after (directives source) 0 with
    | None => inl CondDirectiveNotMatch
    | Some O => inr tt
    | Some (S _) => inl AssertionError
    end.
Proof.
  rewrite preprocess_unfold. unfold directives.
  pose proof (scan_result_by_depth classes source Hext
                (finditer directive_pattern source) []) as H.
  cbn [length] in H. unfold bind.
  destruct (depth_after
              (map (fun m => g_directive (m_groups m))
                 (finditer directive_pattern source)) 0) as [d |].
  - destruct H as (stack' & -> & Hl). destruct stack'; subst d; reflexivity.
  - rewrite H. reflexivity.
Qed.

Lemma preprocess_result_by_depth_witness :
  let source :=
    lines [lit "#ifdef A"; lit "#else"; lit "#endif"; lit "#endif"] in
  result (preprocess_c_source_code [SignatureAlgorithmDefinition_cls] source)
  = inl CondDirectiveNotMatch.
Proof.
  intros source.
  apply (preprocess_result_by_depth [SignatureAlgorithmDefinition_cls] source
           (sig_only_never_raises source)).
Defined.

(** ** generate_ssl_debug_helpers: a source without directives *)

Lemma span_while_eq (p : ascii -> bool) (s : text) : forall a b,
  span_while p s = (a, b) -> s = a ++ b.
Proof.
  induction s as [| c s IH]; intros a b H; simpl in H.
  - inversion H. reflexivity.
  - destruct (p c).
    + destruct (span_while p s) as [a' b'] eqn:E. inversion H; subst.
      simpl. rewrite <- (IH _ _ eq_refl). reflexivity.
    + inversion H. reflexivity.
Qed.

Lemma directive_pattern_no_hash (bol : bool) (s : text) :
  ~ In "#"%char s -> directive_pattern bol s = None.
Proof.
  intros Hni. unfold directive_pattern. destruct bol; [| reflexivity].
  destruct (span_while is_blank s) as [a s1] eqn:E.
  apply span_while_eq in E. subst s.
  destruct s1 as [| c s1]; [reflexivity |].
  change (expect (lit "#") (c :: s1))
    with (if Ascii.eqb "#" c then Some s1 else None).
  destruct (Ascii.eqb "#" c) eqn:Ec; [| reflexivity].
  apply Ascii.eqb_eq in Ec. subst c. exfalso. apply Hni.
  apply in_or_app. right. left. reflexivity.
Qed.

Lemma finditer_no_hash (s : text) : forall bol pos skip,
  ~ In "#"%char s -> finditer_loop directive_pattern bol pos skip s = [].
Proof.
  induction s as [| c s IH]; intros bol pos skip Hni; [reflexivity |].
  assert (Hs : ~ In "#"%char s) by (intros H; apply Hni; right; exact H).
  cbn [finditer_loop]. destruct skip as [| k].
  - rewrite (directive_pattern_no_hash bol (c :: s) Hni). apply IH. exact Hs.
  - apply IH. exact Hs.
Qed.

(** A header without any number sign has no directive, so nothing in it is
    scanned: whatever it declares and whatever the extractors are, the file
    written is the template around an empty list of functions. *)
Theorem generate_without_directives_is_empty_template
  (classes : list cls) (contents : text)
  (Hhash : ~ In "#"%char contents) :
  preprocess_c_source_code classes (remove_c_comments contents)
  = Run [] (inr tt)
  /\ generate_with classes contents = inr (OUTPUT_C_TEMPLATE []).
Proof.
  assert (Hs : ~ In "#"%char (remove_c_comments contents)).
  { intros H. apply Hhash.
    apply (subseq_In _ _ _ (remove_subseq contents) H). }
  assert (Hp : preprocess_c_source_code classes (remove_c_comments contents)
               = Run [] (inr tt)).
  { rewrite preprocess_unfold. unfold finditer.
    rewrite (finditer_no_hash _ true 0 0 Hs). reflexivity. }
  split; [exact Hp |].
  unfold generate_with. rewrite Hp. reflexivity.
Qed.

Lemma generate_without_directives_is_empty_template_witness :
  let contents := lines [lit "typedef enum { RED, GREEN } Color; // tint"] in
  preprocess_c_source_code registered (remove_c_comments contents)
  = Run [] (inr tt)
  /\ generate_with registered contents = inr (OUTPUT_C_TEMPLATE []).
Proof.
  intros contents.
  apply (generate_without_directives_is_empty_template registered contents).
  vm_compute. intros H.
  repeat (destruct H as [H | H]; [discriminate H |]). exact H.
Defined.

(** ** EnumDefinition.extract: what it yields and when it raises *)

Definition not_brace (c : ascii) : bool := negb (Ascii.eqb c "}").

Lemma enum_pattern_groups (bol : bool) (s : text) (g : enum_groups)
  (len : nat) :
  enum_pattern bol s = Some (g, len) ->
  forallb is_word (prefix_name g) = true
  /\ forallb is_word (suffix_name g) = true
  /\ forallb not_brace (body g) = true
  /\ match body g with
     | [] => True
     | c :: _ => is_space c = false
     end.
Proof.
  unfold enum_pattern. intros H.
  destruct (expect (lit "enum") s) as [s1 |]; [| discriminate].
  destruct (span_while is_space s1) as [w1 s2].
  destruct (span_while is_word s2) as [prefix s3] eqn:E3.
  destruct (span_while is_space s3) as [w2 s4].
  destruct (expect (lit "{") s4) as [s5 |]; [| discriminate].
  destruct (span_while is_space s5) as [w3 s6] eqn:E6.
  destruct (span_while (fun c => negb (Ascii.eqb c "}")) s6) as [b s7] eqn:E7.
  destruct (expect (lit "}") s7) as [s8 |]; [| discriminate].
  destruct (span_while is_space s8) as [w4 s9].
  destruct (span_while is_word s9) as [suffix s10] eqn:E10.
  destruct (span_while is_space s10) as [w5 s11].
  destruct (expect (lit ";") s11) as [s12 |]; [| discriminate].
  inversion H; subst; cbn [prefix_name suffix_name body].
  split; [exact (span_while_forallb _ _ _ _ E3) |].
  split; [exact (span_while_forallb _ _ _ _ E10) |].
  split; [exact (span_while_forallb _ _ _ _ E7) |].
  destruct b as [| c b]; [exact I |].
  pose proof (span_while_stop _ _ _ _ E6) as Hs.
  apply span_while_eq in E7. subst s6. simpl in Hs. tauto.
Qed.

Lemma enum_extract_loop_In (ms : list (rmatch enum_groups)) (i : instance) :
  In i (yielded
          (for_each ms
             (fun m (_ : unit) =>
                match EnumDefinition_init (m_start m, m_end m) (m_groups m)
                with
                | inl e => raise e
                | inr d => yield (IEnum d)
                end) tt)) ->
  exists m e, In m ms
              /\ EnumDefinition_init (m_start m, m_end m) (m_groups m) = inr e
              /\ i = IEnum e.
Proof.
  induction ms as [| m ms IH]; intros H; [contradiction |].
  cbn [for_each] in H. unfold bind in H.
  destruct (EnumDefinition_init (m_start m, m_end m) (m_groups m))
    as [x | d] eqn:E; cbn [result yielded raise yield] in H.
  - contradiction.
  - cbn [app] in H. destruct H as [H | H].
    + exists m, d. split; [left; reflexivity | split; [exact E | auto]].
    + destruct (IH H) as (m' & e & Hin & He & Hi).
      exists m', e. split; [right; exact Hin | split; assumption].
Qed.

(** Every enum that [extract] yields has a name made of word characters
    only and not empty, a prototype that is this name (a typedef) or "enum "
    followed by it (a tag), and a body that is not empty, does not begin
    with white space and holds no closing brace. *)
Theorem EnumDefinition_extract_yields_named_enums
  (source : text) (st en : nat) (i : instance)
  (Hin : In i (yielded (EnumDefinition_extract source st en))) :
  exists e,
    i = IEnum e
    /\ e_name e <> [] /\ forallb is_word (e_name e) = true
    /\ (e_prototype e = e_name e \/ e_prototype e = lit "enum " ++ e_name e)
    /\ forallb not_brace (e_body e) = true
    /\ (exists c b, e_body e = c :: b /\ is_space c = false).
Proof.
  unfold EnumDefinition_extract in Hin.
  apply enum_extract_loop_In in Hin.
  destruct Hin as (m & e & Hm & He & ->).
  exists e. split; [reflexivity |].
  unfold finditer_in in Hm. apply finditer_loop_In in Hm.
  destruct Hm as (bol & s' & len & Hp).
  apply enum_pattern_groups in Hp. destruct Hp as (Hpre & Hsuf & Hb & Hsp).
  unfold EnumDefinition_init in He.
  destruct (m_groups m) as [p b s]; cbn [prefix_name suffix_name body] in *.
  destruct b as [| c b]; cbn [nonempty] in He.
  { destruct (nonempty p || nonempty s); discriminate He. }
  destruct s as [| x s]; destruct p as [| y p]; cbn [nonempty orb] in He;
    try discriminate He; inversion He; subst e;
    cbn [e_name e_prototype e_body];
    (split; [discriminate |]);
    (split; [assumption |]);
    (split; [auto |]);
    (split; [assumption |]);
    exists c, b; (split; [reflexivity | assumption]).
Qed.

Lemma EnumDefinition_extract_yields_named_enums_witness :
  let source := lit "typedef enum { RED, GREEN } Color;" in
  exists e,
    IEnum (MkEnum (lit "Color") (lit "Color") (lit "RED, GREEN ") (8, 34))
    = IEnum e
    /\ e_name e <> [] /\ forallb is_word (e_name e) = true
    /\ (e_prototype e = e_name e \/ e_prototype e = lit "enum " ++ e_name e)
    /\ forallb not_brace (e_body e) = true
    /\ (exists c b, e_body e = c :: b /\ is_space c = false).
Proof.
  intros source.
  apply (EnumDefinition_extract_yields_named_enums source 0 34).
  vm_compute. left. reflexivity.
Defined.

(** The assertions of [__init__] on the groups of a match. *)
Definition enum_ok (m : rmatch enum_groups) : bool :=
  (nonempty (prefix_name (m_groups m)) || nonempty (suffix_name (m_groups m)))
  && nonempty (body (m_groups m)).

Fixpoint take_while {A} (p : A -> bool) (l : list A) : list A :=
  match l with
  | [] => []
  | x :: l' => if p x then x :: take_while p l' else []
  end.

Lemma enum_init_ok (m : rmatch enum_groups) :
  match EnumDefinition_init (m_start m, m_end m) (m_groups m) with
  | inl e => enum_ok m = false /\ e = AssertionError
  | inr d => enum_ok m = true /\ e_span d = (m_start m, m_end m)
  end.
Proof.
  unfold EnumDefinition_init, enum_ok.
  destruct (nonempty (prefix_name (m_groups m))
            || nonempty (suffix_name (m_groups m)));
    destruct (nonempty (body (m_groups m))); cbn; split; reflexivity.
Qed.

Lemma enum_extract_loop (ms : list (rmatch enum_groups)) :
  let g := for_each ms
             (fun m (_ : unit) =>
                match EnumDefinition_init (m_start m, m_end m) (m_groups m)
                with
                | inl e => raise e
                | inr d => yield (IEnum d)
                end) tt in
  result g = (if forallb enum_ok ms then inr tt else inl AssertionError)
  /\ map span (yielded g)
     = map (fun m => (m_start m, m_end m)) (take_while enum_ok ms).
Proof.
  induction ms as [| m ms IH]; [split; reflexivity |].
  cbn [for_each forallb take_while] in *. unfold bind.
  pose proof (enum_init_ok m) as Hi.
  destruct (EnumDefinition_init (m_start m, m_end m) (m_groups m))
    as [e | d]; destruct Hi as [Hok He]; rewrite Hok;
    cbn [result yielded raise yield andb].
  - subst e. split; reflexivity.
  - destruct IH as [IH1 IH2]. split; [exact IH1 |].
    cbn [app map span]. rewrite He, IH2. reflexivity.
Qed.

(** [extract] raises AssertionError exactly when an enum matched in the
    region has neither a tag nor a typedef name, or has an empty body; the
    enums matched before the first such one have been yielded by then, each
    with the span of its match. *)
Theorem EnumDefinition_extract_raises_on_unnamed_or_empty
  (source : text) (st en : nat) :
  let ms := finditer_in enum_pattern source st en in
  let g := EnumDefinition_extract source st en in
  result g = (if forallb enum_ok ms then inr tt else inl AssertionError)
  /\ map span (yielded g)
     = map (fun m => (m_start m, m_end m)) (take_while enum_ok ms).
Proof. apply enum_extract_loop. Qed.

(** ** generate_translation_function: the table of an enum body *)

(** What one line of the body adds to [translation_table]. *)
Definition line_entries (line : text) : list text :=
  if startswith_hash (strip line) then [strip line]
  else if negb (nonempty (strip line)) then []
  else flat_map (fun field =>
         if negb (nonempty (strip field)) then []
         else
           let member := hd [] (split_ws (strip field)) in
           [lit "        [" ++ member ++ lit "] = " ++ [dquote] ++ member
            ++ [dquote] ++ lit ","])
       (split_on "," (strip line)).

Lemma translation_table_lines (b : text) :
  translation_table_of_body b = flat_map line_entries (splitlines b).
Proof. reflexivity. Qed.

(** The table entry of a member. *)
Definition member_entry (member : text) : text :=
  lit "        [" ++ member ++ lit "] = " ++ [dquote] ++ member ++ [dquote]
  ++ lit ",".

Lemma word_char_facts (c : ascii) :
  is_word c = true ->
  is_space c = false /\ Ascii.eqb c "," = false /\ Ascii.eqb c "#" = false.
Proof.
  destruct c as [[] [] [] [] [] [] [] []]; intros H; vm_compute in H;
    try discriminate H; vm_compute; repeat split.
Qed.

Lemma space_char_facts (c : ascii) :
  is_space c = false -> is_linebreak c = false.
Proof.
  destruct c as [[] [] [] [] [] [] [] []]; intros H; vm_compute in H;
    try discriminate H; reflexivity.
Qed.

Lemma blank_char_facts (c : ascii) :
  is_blank c = true -> is_space c = true /\ is_linebreak c = false.
Proof.
  destruct c as [[] [] [] [] [] [] [] []]; intros H; vm_compute in H;
    try discriminate H; vm_compute; split; reflexivity.
Qed.

Lemma splitlines_go_line (line rest : text) : forall cur,
  forallb (fun c => negb (is_linebreak c)) line = true ->
  splitlines_go cur (line ++ nl :: rest)
  = (rev cur ++ line) :: splitlines_go [] rest.
Proof.
  induction line as [| c line IH]; intros cur H.
  - cbn [app splitlines_go]. change (is_linebreak nl) with true. cbv iota.
    rewrite app_nil_r. f_equal.
    destruct rest as [| d rest]; reflexivity.
  - cbn [forallb] in H. apply andb_prop in H. destruct H as [Hc Hl].
    cbn [app splitlines_go]. apply negb_true_iff in Hc. rewrite Hc.
    rewrite (IH (c :: cur) Hl). cbn [rev]. rewrite <- app_assoc. reflexivity.
Qed.

(** The body is read line by line, in order. *)
Lemma translation_table_line (line rest : text) :
  forallb (fun c => negb (is_linebreak c)) line = true ->
  translation_table_of_body (line ++ nl :: rest)
  = line_entries line ++ translation_table_of_body rest.
Proof.
  intros H. rewrite !translation_table_lines. unfold splitlines.
  rewrite (splitlines_go_line line rest [] H). reflexivity.
Qed.

Definition nonspace (c : ascii) : bool := negb (is_space c).

Lemma lstrip_spaces (ind x : text) :
  forallb is_space ind = true -> lstrip (ind ++ x) = lstrip x.
Proof.
  induction ind as [| c ind IH]; intros H; [reflexivity |].
  cbn [forallb] in H. apply andb_prop in H. destruct H as [Hc Hi].
  cbn [app lstrip]. rewrite Hc. apply IH. exact Hi.
Qed.

Lemma lstrip_nonspace (x : text) :
  forallb nonspace x = true -> lstrip x = x.
Proof.
  destruct x as [| c x]; intros H; [reflexivity |].
  cbn [forallb] in H. apply andb_prop in H. destruct H as [Hc _].
  apply negb_true_iff in Hc. cbn [lstrip]. rewrite Hc. reflexivity.
Qed.

Lemma forallb_rev {A} (p : A -> bool) (l : list A) :
  forallb p l = true -> forallb p (rev l) = true.
Proof.
  rewrite !forallb_forall. intros H x Hx. apply H. apply in_rev. exact Hx.
Qed.

Lemma strip_indented (ind x : text) :
  forallb is_space ind = true -> forallb nonspace x = true ->
  strip (ind ++ x) = x.
Proof.
  intros Hi Hx. unfold strip, rstrip.
  rewrite (lstrip_spaces ind x Hi), (lstrip_nonspace x Hx).
  rewrite (lstrip_nonspace (rev x) (forallb_rev _ _ Hx)).
  apply rev_involutive.
Qed.

Lemma split_on_last (sep : ascii) (n : text) :
  forallb (fun c => negb (Ascii.eqb c sep)) n = true ->
  split_on sep (n ++ [sep]) = [n; []].
Proof.
  induction n as [| c n IH]; intros H.
  - cbn [app split_on]. rewrite Ascii.eqb_refl. reflexivity.
  - cbn [forallb] in H. apply andb_prop in H. destruct H as [Hc Hn].
    apply negb_true_iff in Hc. cbn [app split_on]. rewrite Hc, (IH Hn).
    reflexivity.
Qed.

Lemma split_ws_cons2 (c d : ascii) (s : text) :
  split_ws (c :: d :: s)
  = if is_space c then split_ws (d :: s)
    else if is_space d then [c] :: split_ws (d :: s)
    else match split_ws (d :: s) with
         | w :: ws => (c :: w) :: ws
         | [] => [[c]]
         end.
Proof. reflexivity. Qed.

Lemma split_ws_word (c : ascii) (n : text) :
  forallb nonspace (c :: n) = true -> split_ws (c :: n) = [c :: n].
Proof.
  revert c. induction n as [| d n IH]; intros c H;
    cbn [forallb] in H; apply andb_prop in H; destruct H as [Hc Hn];
    apply negb_true_iff in Hc.
  - cbn [split_ws]. rewrite Hc. reflexivity.
  - rewrite split_ws_cons2, Hc, (IH d Hn).
    cbn [forallb] in Hn. apply andb_prop in Hn. destruct Hn as [Hd _].
    apply negb_true_iff in Hd. rewrite Hd. reflexivity.
Qed.

(** A member name: word characters, at least one. *)
Definition is_member (n : text) : Prop :=
  n <> [] /\ forallb is_word n = true.

Lemma member_nonspace (n : text) :
  forallb is_word n = true ->
  forallb nonspace n = true
  /\ forallb (fun c => negb (Ascii.eqb c ",")) n = true.
Proof.
  intros H. rewrite !forallb_forall in *. split; intros c Hc;
    destruct (word_char_facts c (H c Hc)) as (Hs & Hk & _);
    unfold nonspace; [rewrite Hs | rewrite Hk]; reflexivity.
Qed.

Lemma line_entries_member (ind n : text) :
  forallb is_blank ind = true -> is_member n ->
  line_entries (ind ++ n ++ lit ",") = [member_entry n].
Proof.
  intros Hi [Hne Hw]. destruct (member_nonspace n Hw) as [Hns Hnc].
  assert (His : forallb is_space ind = true).
  { rewrite forallb_forall in *. intros c Hc.
    apply (proj1 (blank_char_facts c (Hi c Hc))). }
  assert (Hx : forallb nonspace (n ++ lit ",") = true).
  { rewrite forallb_app, Hns. reflexivity. }
  unfold line_entries. rewrite (strip_indented ind _ His Hx).
  destruct n as [| c n]; [contradiction Hne; reflexivity |].
  cbn [app startswith_hash nonempty negb].
  cbn [forallb] in Hw. apply andb_prop in Hw. destruct Hw as [Hc _].
  destruct (word_char_facts c Hc) as (_ & _ & Hh). rewrite Hh.
  change (c :: n ++ lit ",") with ((c :: n) ++ [","%char]).
  rewrite (split_on_last "," (c :: n) Hnc). cbn [flat_map].
  pose proof (strip_indented [] (c :: n) eq_refl Hns) as Hst.
  cbn [app] in Hst. rewrite Hst. cbn [nonempty negb].
  rewrite (split_ws_word c n Hns). reflexivity.
Qed.

(** [starts_solid x]: [x] is not empty and does not begin with white
    space. *)
Definition starts_solid (x : text) : Prop :=
  match x with
  | c :: _ => is_space c = false
  | [] => False
  end.

Lemma starts_solid_app (x y : text) : starts_solid x -> starts_solid (x ++ y).
Proof. destruct x; [contradiction | exact (fun H => H)]. Qed.

Lemma starts_solid_lstrip (x : text) : starts_solid x -> lstrip x = x.
Proof.
  destruct x as [| c x]; [contradiction |]. intros H. cbn [lstrip].
  unfold starts_solid in H. rewrite H. reflexivity.
Qed.

Lemma nonspace_starts_solid (x : text) :
  x <> [] -> forallb nonspace x = true ->
  starts_solid x /\ starts_solid (rev x).
Proof.
  intros Hne H.
  assert (G : forall y, y <> [] -> forallb nonspace y = true ->
                        starts_solid y).
  { intros [| c y] Hy Hf; [contradiction Hy; reflexivity |].
    cbn [forallb] in Hf. apply andb_prop in Hf. destruct Hf as [Hc _].
    apply negb_true_iff in Hc. exact Hc. }
  split; [apply G; assumption |].
  apply G; [| apply forallb_rev; exact H].
  intros Hr. apply Hne. rewrite <- (rev_involutive x), Hr. reflexivity.
Qed.

Lemma strip_trimmed (ind x : text) :
  forallb is_space ind = true -> starts_solid x -> starts_solid (rev x) ->
  strip (ind ++ x) = x.
Proof.
  intros Hi Hx Hr. unfold strip, rstrip.
  rewrite (lstrip_spaces ind x Hi), (starts_solid_lstrip x Hx).
  rewrite (starts_solid_lstrip (rev x) Hr). apply rev_involutive.
Qed.

Lemma split_on_none (sep : ascii) (x : text) :
  forallb (fun c => negb (Ascii.eqb c sep)) x = true ->
  split_on sep x = [x].
Proof.
  induction x as [| c x IH]; intros H; [reflexivity |].
  cbn [forallb] in H. apply andb_prop in H. destruct H as [Hc Hx].
  apply negb_true_iff in Hc. cbn [split_on]. rewrite Hc, (IH Hx).
  reflexivity.
Qed.

Lemma hd_split_ws (c : ascii) (n : text) (sp : ascii) (rest : text) :
  forallb nonspace (c :: n) = true -> is_space sp = true ->
  hd [] (split_ws ((c :: n) ++ sp :: rest)) = c :: n.
Proof.
  intros H Hsp. revert c H. induction n as [| d n IH]; intros c H;
    cbn [forallb] in H; apply andb_prop in H; destruct H as [Hc Hn];
    apply negb_true_iff in Hc; cbn [app]; rewrite split_ws_cons2, Hc.
  - rewrite Hsp. reflexivity.
  - pose proof (IH d Hn) as IH'. cbn [app] in IH'.
    cbn [forallb] in Hn. apply andb_prop in Hn. destruct Hn as [Hd _].
    apply negb_true_iff in Hd. rewrite Hd.
    destruct (split_ws (d :: n ++ sp :: rest)) as [| w ws]; cbn [hd] in *.
    + discriminate IH'.
    + rewrite IH'. reflexivity.
Qed.

(** A line of an enum body as headers lay it out: a member, with or without
    an initialiser and a comma behind it, a preprocessor directive, or a
    blank line; each with its indentation. *)
Inductive body_line : Type :=
| Member (ind n : text) (init : option text) (comma : bool)
| Directive (ind d : text)
| Blank (ind : text).

Definition init_text (init : option text) : text :=
  match init with
  | Some v => lit " = " ++ v
  | None => []
  end.

Definition render (l : body_line) : text :=
  match l with
  | Member ind n init comma =>
      ind ++ (n ++ init_text init) ++ (if comma then lit "," else [])
  | Directive ind d => ind ++ "#"%char :: d
  | Blank ind => ind
  end.

Definition no_comma (c : ascii) : bool := negb (Ascii.eqb c ",").

Definition no_linebreak (c : ascii) : bool := negb (is_linebreak c).

(** An initialiser value: one token without a comma. *)
Definition is_value (v : text) : Prop :=
  v <> [] /\ forallb nonspace v = true /\ forallb no_comma v = true.

Definition well_formed (l : body_line) : Prop :=
  match l with
  | Member ind n init _ =>
      forallb is_blank ind = true /\ is_member n
      /\ match init with
         | Some v => is_value v
         | None => True
         end
  | Directive ind d =>
      forallb is_blank ind = true /\ forallb no_linebreak d = true
      /\ match rev d with
         | [] => True
         | z :: _ => is_space z = false
         end
  | Blank ind => forallb is_blank ind = true
  end.

(** What the line adds to the table. *)
Definition entries (l : body_line) : list text :=
  match l with
  | Member _ n _ _ => [member_entry n]
  | Directive _ d => ["#"%char :: d]
  | Blank _ => []
  end.

Lemma nonspace_no_linebreak (x : text) :
  forallb nonspace x = true -> forallb no_linebreak x = true.
Proof.
  rewrite !forallb_forall. intros H c Hc. unfold no_linebreak.
  specialize (H c Hc). apply negb_true_iff in H.
  rewrite (space_char_facts c H). reflexivity.
Qed.

Lemma blank_spaces (ind : text) :
  forallb is_blank ind = true ->
  forallb is_space ind = true /\ forallb no_linebreak ind = true.
Proof.
  rewrite !forallb_forall. intros H. split; intros c Hc;
    destruct (blank_char_facts c (H c Hc)) as [Hs Hl];
    [exact Hs | unfold no_linebreak; rewrite Hl; reflexivity].
Qed.

Lemma field_facts (n : text) (init : option text) :
  is_member n ->
  match init with Some v => is_value v | None => True end ->
  let f := n ++ init_text init in
  forallb no_comma f = true /\ starts_solid f /\ starts_solid (rev f)
  /\ hd [] (split_ws f) = n /\ forallb no_linebreak f = true.
Proof.
  intros [Hne Hw] Hv. destruct (member_nonspace n Hw) as [Hns Hnc].
  destruct (nonspace_starts_solid n Hne Hns) as [Hs Hr].
  destruct init as [v |]; cbn [init_text]; cbv zeta.
  - destruct Hv as (Hvne & Hvs & Hvc).
    destruct (nonspace_starts_solid v Hvne Hvs) as [_ Hvr].
    split; [| split; [| split; [| split]]].
    + unfold no_comma in *. rewrite !forallb_app, Hnc, Hvc. reflexivity.
    + apply starts_solid_app. exact Hs.
    + rewrite !rev_app_distr. rewrite <- app_assoc.
      apply starts_solid_app. exact Hvr.
    + destruct n as [| c n]; [contradiction Hne; reflexivity |].
      change (lit " = " ++ v) with (" "%char :: lit "= " ++ v).
      apply hd_split_ws; [exact Hns | reflexivity].
    + rewrite !forallb_app.
      rewrite (nonspace_no_linebreak n Hns), (nonspace_no_linebreak v Hvs).
      reflexivity.
  - rewrite app_nil_r.
    split; [exact Hnc | split; [exact Hs | split; [exact Hr | split]]].
    + destruct n as [| c n]; [contradiction Hne; reflexivity |].
      rewrite (split_ws_word c n Hns). reflexivity.
    + apply nonspace_no_linebreak. exact Hns.
Qed.

Lemma line_entries_render (l : body_line) :
  well_formed l ->
  line_entries (render l) = entries l
  /\ forallb no_linebreak (render l) = true.
Proof.
  destruct l as [ind n init comma | ind d | ind]; cbn [well_formed render entries].
  - intros (Hi & Hm & Hv). destruct (blank_spaces ind Hi) as [His Hil].
    pose proof (field_facts n init Hm Hv) as Hf. cbv zeta in Hf.
    assert (Hh : exists c r, n ++ init_text init = c :: r
                             /\ Ascii.eqb c "#" = false).
    { destruct Hm as [Hne Hw]. destruct n as [| c n];
        [contradiction Hne; reflexivity |].
      cbn [forallb] in Hw. apply andb_prop in Hw. destruct Hw as [Hc _].
      exists c, (n ++ init_text init). split; [reflexivity |].
      apply (word_char_facts c Hc). }
    remember (n ++ init_text init) as f eqn:Ef.
    destruct Hf as (Hfc & Hfs & Hfr & Hhd & Hfl).
    destruct Hh as (c & r & Hcr & Hhash).
    assert (Hsf : strip f = f).
    { apply (strip_trimmed [] f eq_refl Hfs Hfr). }
    assert (Hsh : forall cp, startswith_hash (f ++ cp) = false
                             /\ nonempty (f ++ cp) = true).
    { intros cp. rewrite Hcr. cbn [app startswith_hash nonempty].
      split; [exact Hhash | reflexivity]. }
    assert (Hnf : nonempty f = true) by (rewrite Hcr; reflexivity).
    split.
    + unfold line_entries. destruct comma.
      * change (lit ",") with [","%char].
        rewrite (strip_trimmed ind (f ++ [","%char]) His).
        -- rewrite (proj1 (Hsh _)), (proj2 (Hsh _)). cbn [negb].
           rewrite (split_on_last "," f Hfc). cbn [flat_map].
           rewrite Hsf, Hnf, Hhd. reflexivity.
        -- apply starts_solid_app. exact Hfs.
        -- rewrite rev_app_distr. reflexivity.
      * rewrite app_nil_r. rewrite (strip_trimmed ind f His Hfs Hfr).
        pose proof (Hsh []) as Hsh'. rewrite app_nil_r in Hsh'.
        rewrite (proj1 Hsh'), (proj2 Hsh'). cbn [negb].
        rewrite (split_on_none "," f Hfc). cbn [flat_map].
        rewrite Hsf, Hnf, Hhd. reflexivity.
    + rewrite !forallb_app, Hil, Hfl. destruct comma; reflexivity.
  - intros (Hi & Hd & Hz). destruct (blank_spaces ind Hi) as [His Hil].
    split.
    + unfold line_entries. rewrite (strip_trimmed ind ("#"%char :: d) His).
      * reflexivity.
      * reflexivity.
      * cbn [rev]. destruct (rev d) as [| z r]; [reflexivity | exact Hz].
    + rewrite forallb_app, Hil. cbn [forallb]. rewrite Hd. reflexivity.
  - intros Hi. destruct (blank_spaces ind Hi) as [His Hil].
    split; [| exact Hil].
    assert (Hs : strip ind = []).
    { rewrite <- (app_nil_r ind). unfold strip.
      rewrite (lstrip_spaces ind [] His). reflexivity. }
    unfold line_entries. rewrite Hs. reflexivity.
Qed.

(** The table of [generate_translation_function] for a body laid out line
    by line: each member gives one entry [name] = "name" whatever its
    indentation, its initialiser and its comma; each preprocessor directive
    is kept, without its indentation; blank lines give nothing; and the
    order of the lines is kept. *)
Theorem translation_table_of_layout (ls : list body_line)
  (Hwf : Forall well_formed ls) :
  translation_table_of_body (flat_map (fun l => render l ++ [nl]) ls)
  = flat_map entries ls.
Proof.
  induction Hwf as [| l ls Hl _ IH]; [reflexivity |].
  destruct (line_entries_render l Hl) as [He Hb].
  cbn [flat_map]. rewrite <- app_assoc. cbn [app].
  rewrite (translation_table_line (render l) _ Hb), He, IH. reflexivity.
Qed.

Lemma translation_table_of_layout_witness :
  translation_table_of_body
    (flat_map (fun l => render l ++ [nl])
       [Member [] (lit "A") (Some (lit "0")) true;
        Directive [] (lit "if defined(X)");
        Member (lit "    ") (lit "B") None true;
        Directive [] (lit "endif");
        Blank (lit "  ");
        Member (lit "    ") (lit "C") None false])
  = [member_entry (lit "A"); lit "#if defined(X)"; member_entry (lit "B");
     lit "#endif"; member_entry (lit "C")].
Proof.
  apply (translation_table_of_layout
           [Member [] (lit "A") (Some (lit "0")) true;
            Directive [] (lit "if defined(X)");
            Member (lit "    ") (lit "B") None true;
            Directive [] (lit "endif");
            Blank (lit "  ");
            Member (lit "    ") (lit "C") None false]).
  repeat constructor; try discriminate; vm_compute; auto.
Defined.

(** The member of a field is its first token as white space delimits it,
    not its identifier: a field written without white space, such as a name
    with its initialiser glued to it, goes into the table whole. *)
Theorem translation_table_member_is_first_token (ind tok : text)
  (Hind : forallb is_blank ind = true)
  (Htok : forallb nonspace tok = true /\ forallb no_comma tok = true)
  (Hhead : nonempty tok = true /\ startswith_hash tok = false) :
  translation_table_of_body (ind ++ tok ++ lit "," ++ [nl])
  = [member_entry tok].
Proof.
  destruct Htok as [Hns Hnc]. destruct Hhead as [Hne Hh].
  destruct (blank_spaces ind Hind) as [His Hil].
  change (lit ",") with [","%char].
  replace (ind ++ tok ++ [","%char] ++ [nl])
    with ((ind ++ tok ++ [","%char]) ++ nl :: [])
    by (rewrite <- !app_assoc; reflexivity).
  rewrite translation_table_line.
  - rewrite app_nil_r. unfold line_entries.
    assert (Hx : forallb nonspace (tok ++ [","%char]) = true)
      by (rewrite forallb_app, Hns; reflexivity).
    rewrite (strip_indented ind _ His Hx).
    destruct tok as [| c tok]; [discriminate Hne |].
    cbn [app startswith_hash nonempty negb] in *. rewrite Hh.
    change (c :: tok ++ [","%char]) with ((c :: tok) ++ [","%char]).
    unfold no_comma in Hnc. rewrite (split_on_last "," (c :: tok) Hnc).
    cbn [flat_map].
    pose proof (strip_indented [] (c :: tok) eq_refl Hns) as Hst.
    cbn [app] in Hst. rewrite Hst. cbn [nonempty negb].
    rewrite (split_ws_word c tok Hns). reflexivity.
  - change (forallb no_linebreak (ind ++ tok ++ [","%char]) = true).
    rewrite !forallb_app, Hil, (nonspace_no_linebreak tok Hns). reflexivity.
Qed.

Lemma translation_table_member_is_first_token_witness :
  translation_table_of_body (lit "    " ++ lit "A=1" ++ lit "," ++ [nl])
  = [member_entry (lit "A=1")].
Proof.
  apply (translation_table_member_is_first_token (lit "    ") (lit "A=1"));
    vm_compute; auto.
Defined.

(** ** The guard lines of an [#else] branch in the dictionary *)

Lemma first_at_In k ys it : first_at k ys = Some it -> In (k, it) ys.
Proof.
  induction ys as [| [k' it'] ys IH]; simpl; intros H; [discriminate |].
  destruct (k' =? k) eqn:E.
  - apply Nat.eqb_eq in E. inversion H; subst. left. reflexivity.
  - right. apply IH. exact H.
Qed.

Lemma first_at_key k ys :
  In k (map fst ys) -> exists it, first_at k ys = Some it.
Proof.
  induction ys as [| [k' it'] ys IH]; simpl; intros H; [contradiction |].
  destruct (k' =? k) eqn:E; [eexists; reflexivity |].
  apply Nat.eqb_neq in E. destruct H as [H | H]; [contradiction |].
  apply IH. exact H.
Qed.

Lemma else_frame_fields fr m :
  f_start (else_frame fr m) = m_start m /\ f_end (else_frame fr m) = m_end m.
Proof. unfold else_frame. destruct (f_directive fr); split; reflexivity. Qed.

(** The start line of the complementary branch differs from every text the
    first branch can put at an offset: its own guard lines and the
    definition of an entity. *)
Lemma else_start_line_differs fr m outer stack it :
  let fr' := else_frame fr m in
  let gl := guard_lines (outer :: stack) (f_directive fr) (f_param fr) in
  it = Line (fst gl) \/ it = Line (snd gl) \/ (exists i, it = Obj i) ->
  definition_of it
  <> DText (lit "#" ++ opener_name (f_directive fr') ++ lit " "
            ++ f_param fr').
Proof.
  intros fr' gl H. subst fr' gl. unfold else_frame.
  destruct fr as [d p s e]. cbn [f_directive f_param guard_lines fst snd] in *.
  destruct H as [-> | [-> | [i ->]]]; cbn [definition_of].
  - destruct d; cbn [f_directive f_param opener_name]; intros H;
      inversion H as [H'].
    apply (f_equal (@length ascii)) in H'.
    cbn [length] in H'. rewrite length_app in H'. simpl in H'. lia.
  - destruct d; cbn [f_directive f_param opener_name]; intros H;
      inversion H.
  - destruct i as [en | sg]; cbn [definition_of]; [| discriminate].
    unfold generate_translation_function.
    destruct d; cbn [f_directive f_param opener_name]; intros H;
      inversion H.
Qed.

(** In a nested block whose two branches both hold entities, the start
    line of the [#else] branch is yielded at the offset of the [#else], the
    offset at which the end line of the first branch was yielded just
    before; the dictionary keeps what it got first, so that start line never
    gets into it through this pair, while the end lines of both branches
    can. *)
Theorem else_branch_start_line_is_dropped
  (classes : list cls) (source : text) (fr outer : frame)
  (stack : list frame) (m_else m_endif : rmatch dgroups)
  (ms : list (rmatch dgroups)) (d : dict)
  (Helse : g_directive (m_groups m_else) = Else)
  (Hendif : g_directive (m_groups m_endif) = Endif)
  (Hres1 : result (extract_all classes source (f_end fr) (m_start m_else))
           = inr tt)
  (Hres2 : result (extract_all classes source (m_end m_else)
                     (m_start m_endif)) = inr tt)
  (Hobj1 : yielded (extract_all classes source (f_end fr) (m_start m_else))
           <> [])
  (Hobj2 : yielded (extract_all classes source (m_end m_else)
                      (m_start m_endif)) <> [])
  (Hnew : lookup (m_start m_else) d = None) :
  let fr' := else_frame fr m_else in
  let start_line := lit "#" ++ opener_name (f_directive fr') ++ lit " "
                    ++ f_param fr' in
  let ys := yielded (scan classes source (m_else :: m_endif :: ms)
                       (fr :: outer :: stack)) in
  In (m_start m_else, Line start_line) ys
  /\ lookup (m_start m_else) (collect ys d) <> Some (DText start_line)
  /\ lookup (m_start m_else) (collect ys d) <> None.
Proof.
  intros fr' start_line ys. subst fr'.
  destruct (else_frame_fields fr m_else) as [Hfs Hfe].
  assert (Hres2' : result (extract_all classes source (f_end (else_frame fr m_else))
                             (m_start m_endif)) = inr tt).
  { rewrite Hfe. exact Hres2. }
  assert (Hys : exists rest,
             ys = guarded (f_start fr)
                    (fst (guard_lines (outer :: stack) (f_directive fr)
                            (f_param fr)))
                    (yielded (extract_all classes source (f_end fr)
                                (m_start m_else)))
                    (m_start m_else)
                    (snd (guard_lines (outer :: stack) (f_directive fr)
                            (f_param fr)))
                  ++ guarded (m_start m_else) start_line
                       (yielded (extract_all classes source (m_end m_else)
                                   (m_start m_endif)))
                       (m_start m_endif)
                       (snd (guard_lines (outer :: stack) (f_directive (else_frame fr m_else))
                               (f_param (else_frame fr m_else))))
                  ++ rest).
  { unfold ys.
    rewrite (scan_else classes source m_else (m_endif :: ms) fr
               (outer :: stack) Helse Hres1).
    rewrite (scan_endif classes source m_endif ms (else_frame fr m_else) (outer :: stack)
               Hendif Hres2').
    cbn [yielded]. unfold scope_emission.
    rewrite (emission_guarded _ _ _ _ _ Hres1).
    rewrite (emission_guarded _ _ _ _ _ Hres2').
    rewrite Hfs, Hfe.
    eexists. reflexivity. }
  destruct Hys as [rest Hys]. rewrite Hys. clear Hys ys.
  destruct (yielded (extract_all classes source (f_end fr) (m_start m_else)))
    as [| i1 r1]; [contradiction Hobj1; reflexivity |].
  destruct (yielded (extract_all classes source (m_end m_else)
                       (m_start m_endif)))
    as [| i2 r2]; [contradiction Hobj2; reflexivity |].
  cbn [guarded].
  set (l1 := fst (guard_lines (outer :: stack) (f_directive fr) (f_param fr))).
  set (e1 := snd (guard_lines (outer :: stack) (f_directive fr) (f_param fr))).
  set (P := (f_start fr, Line l1) :: map obj_item (i1 :: r1)
            ++ [(m_start m_else, Line e1)]).
  split.
  - apply in_or_app. right. left. reflexivity.
  - assert (HP : exists it, first_at (m_start m_else) P = Some it).
    { apply first_at_key. unfold P. cbn [map fst]. right.
      rewrite map_app. apply in_or_app. right. left. reflexivity. }
    destruct HP as [it HP].
    assert (Hl : lookup (m_start m_else)
                   (collect (P ++ ((m_start m_else, Line start_line)
                                   :: map obj_item (i2 :: r2)
                                   ++ [(m_start m_endif,
                                        Line (snd (guard_lines
                                                     (outer :: stack)
                                                     (f_directive (else_frame fr m_else))
                                                     (f_param (else_frame fr m_else)))))])
                               ++ rest) d)
                 = Some (definition_of it)).
    { rewrite collect_lookup, Hnew, first_at_app, HP. reflexivity. }
    fold P. rewrite Hl. split; [| discriminate].
    intros Heq. inversion Heq as [Hd].
    apply first_at_In in HP. unfold P in HP.
    refine (else_start_line_differs fr m_else outer stack it _ Hd).
    destruct HP as [HP | HP]; [inversion HP; left; reflexivity |].
    apply in_app_or in HP. destruct HP as [HP | HP].
    + apply in_map_iff in HP. destruct HP as (i & Hi & _).
      inversion Hi. right. right. exists i. reflexivity.
    + destruct HP as [HP | []]. inversion HP. right. left. reflexivity.
Qed.

(** A header with an enum in each branch of a nested [#ifdef]. *)
Definition enums_in_both_branches : text :=
  lines [lit "#ifndef G"; lit "#ifdef X"; lit "typedef enum { A } TA;";
         lit "#else"; lit "typedef enum { B } TB;"; lit "#endif";
         lit "#endif"].

Lemma else_branch_start_line_is_dropped_witness :
  let ys :=
    yielded (scan registered enums_in_both_branches
               [RMatch 42 47 (DGroups Else []);
                RMatch 71 77 (DGroups Endif []);
                RMatch 78 84 (DGroups Endif [])]
               [Frame Ifdef (lit "X") 10 18; Frame Ifndef (lit "G") 0 9]) in
  In (42, Line (lit "#ifndef X")) ys
  /\ lookup 42 (collect ys []) <> Some (DText (lit "#ifndef X"))
  /\ lookup 42 (collect ys []) <> None.
Proof.
  apply (else_branch_start_line_is_dropped registered enums_in_both_branches
           (Frame Ifdef (lit "X") 10 18) (Frame Ifndef (lit "G") 0 9) []
           (RMatch 42 47 (DGroups Else [])) (RMatch 71 77 (DGroups Endif []))
           [RMatch 78 84 (DGroups Endif [])] []);
    vm_compute; try reflexivity; discriminate.
Defined.

(** ** The directive pattern: what it does not recognise *)

Lemma span_while_blank_hash (ind rest : text) :
  forallb is_blank ind = true ->
  span_while is_blank (ind ++ "#"%char :: rest) = (ind, "#"%char :: rest).
Proof.
  intros H. rewrite (span_while_app is_blank ind _ H). cbn.
  rewrite app_nil_r. reflexivity.
Qed.

Lemma directive_pattern_indented (ind rest : text) :
  forallb is_blank ind = true ->
  directive_pattern true (ind ++ "#"%char :: rest)
  = let (_, s3) := span_while is_blank rest in
    match directive_word s3 with
    | Some (d, s4) =>
        let (_, s5) := span_while is_blank s4 in
        let (p, s6) := take_param s5 in
        Some (DGroups d p, length (ind ++ "#"%char :: rest) - length s6)
    | None => None
    end.
Proof.
  intros H. unfold directive_pattern.
  rewrite (span_while_blank_hash ind _ H). reflexivity.
Qed.

(** [#elif] is no directive for the scan, whatever follows it and however
    it is indented: the line is skipped, the block that is open stays
    open, and what follows is still scanned under the guard of its
    opening directive. *)
Theorem elif_is_not_a_directive (ind rest : text)
  (Hind : forallb is_blank ind = true) :
  directive_pattern true (ind ++ lit "#elif" ++ rest) = None.
Proof.
  change (ind ++ lit "#elif" ++ rest)
    with (ind ++ "#"%char :: lit "elif" ++ rest).
  rewrite (directive_pattern_indented ind _ Hind). reflexivity.
Qed.

Lemma elif_is_not_a_directive_witness :
  directive_pattern true (lit "  " ++ lit "#elif" ++ lit " defined(B)") = None.
Proof.
  apply (elif_is_not_a_directive (lit "  ") (lit " defined(B)")).
  reflexivity.
Defined.

(** [#if] opens a block only when a blank follows it: with any other
    character behind it, a parenthesis for one, the line is no directive at
    all (unless it spells [#ifdef] or [#ifndef]). *)
Theorem if_needs_a_blank (ind : text) (c : ascii) (rest : text)
  (Hind : forallb is_blank ind = true)
  (Hc : is_blank c = false /\ c <> "d"%char /\ c <> "n"%char) :
  directive_pattern true (ind ++ lit "#if" ++ c :: rest) = None.
Proof.
  destruct Hc as (Hb & Hd & Hn).
  change (ind ++ lit "#if" ++ c :: rest)
    with (ind ++ "#"%char :: "i"%char :: "f"%char :: c :: rest).
  rewrite (directive_pattern_indented ind _ Hind).
  change (span_while is_blank ("i"%char :: "f"%char :: c :: rest))
    with (@nil ascii, "i"%char :: "f"%char :: c :: rest).
  cbv iota.
  assert (Hw : directive_word ("i"%char :: "f"%char :: c :: rest) = None).
  { unfold directive_word.
    change (expect (lit "if") ("i"%char :: "f"%char :: c :: rest))
      with (Some (c :: rest)).
    cbn [then_blank]. rewrite Hb.
    change (expect (lit "ifndef") ("i"%char :: "f"%char :: c :: rest))
      with (if Ascii.eqb "n" c then expect (lit "def") rest else None).
    change (expect (lit "ifdef") ("i"%char :: "f"%char :: c :: rest))
      with (if Ascii.eqb "d" c then expect (lit "ef") rest else None).
    destruct (Ascii.eqb "n" c) eqn:En;
      [apply Ascii.eqb_eq in En; congruence |].
    destruct (Ascii.eqb "d" c) eqn:Ed;
      [apply Ascii.eqb_eq in Ed; congruence |].
    reflexivity. }
  rewrite Hw. reflexivity.
Qed.

Lemma if_needs_a_blank_witness :
  directive_pattern true ([] ++ lit "#if" ++ "("%char :: lit "A)") = None.
Proof.
  apply (if_needs_a_blank [] "(" (lit "A)")).
  - reflexivity.
  - repeat split; discriminate.
Defined.

(** ** The parameter of a directive *)

Definition not_nl (c : ascii) : bool := negb (Ascii.eqb c nl).

Definition not_backslash (c : ascii) : bool := negb (Ascii.eqb c backslash).

Lemma take_param_step (c : ascii) (s' : text) :
  take_param (c :: s')
  = if Ascii.eqb c nl then ([], c :: s')
    else if Ascii.eqb c backslash then
      match s' with
      | d :: s'' =>
          if Ascii.eqb d nl
          then let (p, r) := take_param s'' in (c :: d :: p, r)
          else let (p, r) := take_param s' in (c :: p, r)
      | [] => ([c], [])
      end
    else let (p, r) := take_param s' in (c :: p, r).
Proof. reflexivity. Qed.

(** A backslash at the end of a line carries the parameter on into the next
    line. *)
Lemma take_param_continued (a r : text) :
  forallb not_nl a = true ->
  take_param (a ++ backslash :: nl :: r)
  = (a ++ backslash :: nl :: fst (take_param r), snd (take_param r)).
Proof.
  induction a as [| c a IH]; intros H.
  - cbn [app]. rewrite take_param_step.
    change (Ascii.eqb backslash nl) with false.
    change (Ascii.eqb backslash backslash) with true.
    change (Ascii.eqb nl nl) with true. cbv iota.
    destruct (take_param r); reflexivity.
  - cbn [forallb] in H. apply andb_prop in H. destruct H as [Hc Ha].
    unfold not_nl in Hc. apply negb_true_iff in Hc.
    cbn [app]. rewrite take_param_step, Hc.
    assert (Hd : match a ++ backslash :: nl :: r with
                 | d :: _ => Ascii.eqb d nl = false
                 | [] => True
                 end).
    { destruct a as [| d a]; [reflexivity |].
      cbn [forallb] in Ha. apply andb_prop in Ha. destruct Ha as [Hd _].
      unfold not_nl in Hd. apply negb_true_iff in Hd. exact Hd. }
    rewrite (IH Ha) in *.
    destruct (a ++ backslash :: nl :: r) as [| d s''] eqn:E.
    + destruct a; discriminate E.
    + rewrite Hd. destruct (Ascii.eqb c backslash); reflexivity.
Qed.

Lemma take_param_line (b r : text) :
  forallb not_nl b = true -> forallb not_backslash b = true ->
  take_param (b ++ nl :: r) = (b, nl :: r).
Proof.
  induction b as [| c b IH]; intros Hn Hb.
  - cbn [app]. rewrite take_param_step.
    change (Ascii.eqb nl nl) with true. reflexivity.
  - cbn [forallb] in Hn, Hb. apply andb_prop in Hn. apply andb_prop in Hb.
    destruct Hn as [Hc Hn]. destruct Hb as [Hc' Hb].
    unfold not_nl in Hc. unfold not_backslash in Hc'.
    apply negb_true_iff in Hc. apply negb_true_iff in Hc'.
    cbn [app]. rewrite take_param_step, Hc, Hc', (IH Hn Hb). reflexivity.
Qed.

(** The parameter of a directive runs over the lines that end in a
    backslash: for [#if a], a backslash, a line feed, [b], a line feed, the
    match ends before the second line feed and its parameter is [a], the
    backslash, the line feed and [b].  The guard lines made from it hold
    the line feed. *)
Theorem directive_param_spans_continuation (ind a b rest : text)
  (Hind : forallb is_blank ind = true)
  (Ha : forallb not_nl a = true
        /\ match a with c :: _ => is_blank c = false | [] => True end)
  (Hb : forallb not_nl b = true /\ forallb not_backslash b = true) :
  directive_pattern true
    (ind ++ lit "#if " ++ a ++ backslash :: nl :: b ++ nl :: rest)
  = Some (DGroups (Open If) (a ++ backslash :: nl :: b),
          length ind + length a + length b + 6).
Proof.
  destruct Ha as [Han Hab]. destruct Hb as [Hbn Hbb].
  set (X := a ++ backslash :: nl :: b ++ nl :: rest).
  change (ind ++ lit "#if " ++ X)
    with (ind ++ "#"%char :: "i"%char :: "f"%char :: " "%char :: X).
  rewrite (directive_pattern_indented ind _ Hind).
  change (span_while is_blank ("i"%char :: "f"%char :: " "%char :: X))
    with (@nil ascii, "i"%char :: "f"%char :: " "%char :: X).
  cbv iota.
  change (directive_word ("i"%char :: "f"%char :: " "%char :: X))
    with (Some (Open If, X)).
  cbv iota.
  assert (Hs : span_while is_blank X = ([], X)).
  { unfold X. destruct a as [| c a]; [reflexivity |].
    cbn [app span_while]. rewrite Hab. reflexivity. }
  rewrite Hs.
  assert (Ht : take_param X = (a ++ backslash :: nl :: b, nl :: rest)).
  { unfold X. rewrite (take_param_continued a _ Han).
    rewrite (take_param_line b rest Hbn Hbb). reflexivity. }
  rewrite Ht. f_equal. f_equal. unfold X.
  repeat (progress (rewrite ?length_app; cbn [length])). lia.
Qed.

Lemma directive_param_spans_continuation_witness :
  directive_pattern true
    ([] ++ lit "#if " ++ lit "defined(A) || " ++ backslash :: nl
     :: lit "    defined(B)" ++ nl :: lit "int x;")
  = Some (DGroups (Open If)
            (lit "defined(A) || " ++ backslash :: nl
             :: lit "    defined(B)"), 34).
Proof.
  apply (directive_param_spans_continuation [] (lit "defined(A) || ")
           (lit "    defined(B)") (lit "int x;")).
  - reflexivity.
  - split; reflexivity.
  - split; reflexivity.
Defined.

(** ** The enum pattern on an enum as it is written *)

(** [\s* (\w* ) \s*]: the word between optional white space, and what
    follows. *)
Definition spaced_word (s : text) : text * text :=
  let (_, s2) := span_while is_space s in
  let (w, s3) := span_while is_word s2 in
  let (_, s4) := span_while is_space s3 in
  (w, s4).

Lemma enum_pattern_spaced (bol : bool) (s : text) :
  enum_pattern bol s
  = match expect (lit "enum") s with
    | Some s1 =>
        let (prefix, s4) := spaced_word s1 in
        match expect (lit "{") s4 with
        | Some s5 =>
            let (_, s6) := span_while is_space s5 in
            let (b, s7) := span_while not_brace s6 in
            match expect (lit "}") s7 with
            | Some s8 =>
                let (suffix, s11) := spaced_word s8 in
                match expect (lit ";") s11 with
                | Some s12 =>
                    Some (EnumGroups prefix b suffix, length s - length s12)
                | None => None
                end
            | None => None
            end
        | None => None
        end
    | None => None
    end.
Proof.
  unfold enum_pattern, spaced_word, not_brace.
  repeat (match goal with
          | |- context [match expect ?l ?x with _ => _ end] =>
              destruct (expect l x); [| reflexivity]
          | |- context [span_while ?p ?x] => destruct (span_while p x)
          end).
  reflexivity.
Qed.

Lemma span_while_none (p : ascii -> bool) (y : text) :
  match y with c :: _ => p c = false | [] => True end ->
  span_while p y = ([], y).
Proof.
  destruct y as [| c y]; intros H; [reflexivity |].
  cbn [span_while]. rewrite H. reflexivity.
Qed.

Lemma span_while_exact (p : ascii -> bool) (a y : text) :
  forallb p a = true ->
  match y with c :: _ => p c = false | [] => True end ->
  span_while p (a ++ y) = (a, y).
Proof.
  intros Ha Hy. rewrite (span_while_app p a y Ha), (span_while_none p y Hy).
  cbn [fst snd]. rewrite app_nil_r. reflexivity.
Qed.

Lemma space_not_word (c : ascii) : is_space c = true -> is_word c = false.
Proof.
  intros H. destruct (is_word c) eqn:E; [| reflexivity].
  destruct (word_char_facts c E) as [Hs _]. congruence.
Qed.

(** [x] begins with a character that is neither white space nor a word
    character. *)
Definition starts_other (x : text) : Prop :=
  match x with
  | c :: _ => is_space c = false /\ is_word c = false
  | [] => False
  end.

Lemma spaced_word_spec (w1 n w2 x : text) :
  forallb is_space w1 = true -> forallb is_word n = true ->
  forallb is_space w2 = true -> starts_other x ->
  spaced_word (w1 ++ n ++ w2 ++ x) = (n, x).
Proof.
  intros H1 Hn H2 Hx. unfold spaced_word.
  destruct x as [| c x]; [contradiction |]. destruct Hx as [Hcs Hcw].
  destruct n as [| d n].
  - cbn [app]. rewrite app_assoc.
    rewrite (span_while_exact is_space (w1 ++ w2) (c :: x));
      [| rewrite forallb_app, H1, H2; reflexivity | exact Hcs].
    rewrite (span_while_none is_word (c :: x) Hcw).
    rewrite (span_while_none is_space (c :: x) Hcs). reflexivity.
  - pose proof Hn as Hn'. cbn [forallb] in Hn'. apply andb_prop in Hn'.
    destruct Hn' as [Hd _]. destruct (word_char_facts d Hd) as [Hds _].
    rewrite (span_while_exact is_space w1 ((d :: n) ++ w2 ++ c :: x) H1 Hds).
    rewrite (span_while_exact is_word (d :: n) (w2 ++ c :: x) Hn).
    + rewrite (span_while_exact is_space w2 (c :: x) H2 Hcs). reflexivity.
    + destruct w2 as [| e w2]; [exact Hcw |].
      cbn [forallb] in H2. apply andb_prop in H2. destruct H2 as [He _].
      apply space_not_word. exact He.
Qed.

(** The enum pattern reads an enum back as it is written: the keyword, an
    optional tag, the braces around a body, an optional typedef name and
    the semicolon, with any white space between them, give the tag, the
    body without the white space before it, and the typedef name; the match
    ends behind the semicolon. *)
Theorem enum_pattern_parses_enum
  (bol : bool) (w1 n w2 w3 b w4 t w5 rest : text)
  (Hspaces : forallb is_space w1 = true /\ forallb is_space w2 = true
             /\ forallb is_space w3 = true /\ forallb is_space w4 = true
             /\ forallb is_space w5 = true)
  (Hnames : forallb is_word n = true /\ forallb is_word t = true)
  (Hbody : forallb not_brace b = true
           /\ match b with c :: _ => is_space c = false | [] => True end) :
  enum_pattern bol
    (lit "enum" ++ w1 ++ n ++ w2 ++ lit "{" ++ w3 ++ b ++ lit "}" ++ w4 ++ t
     ++ w5 ++ lit ";" ++ rest)
  = Some (EnumGroups n b t,
          7 + length w1 + length n + length w2 + length w3 + length b
          + length w4 + length t + length w5).
Proof.
  destruct Hspaces as (H1 & H2 & H3 & H4 & H5).
  destruct Hnames as [Hn Ht]. destruct Hbody as [Hb Hbs].
  rewrite enum_pattern_spaced.
  set (Z3 := lit ";" ++ rest).
  set (Z2 := lit "}" ++ w4 ++ t ++ w5 ++ Z3).
  set (Z1 := lit "{" ++ w3 ++ b ++ Z2).
  change (expect (lit "enum") (lit "enum" ++ w1 ++ n ++ w2 ++ Z1))
    with (Some (w1 ++ n ++ w2 ++ Z1)).
  cbv iota.
  rewrite (spaced_word_spec w1 n w2 Z1 H1 Hn H2 (conj eq_refl eq_refl)).
  change (expect (lit "{") Z1) with (Some (w3 ++ b ++ Z2)).
  cbv iota.
  rewrite (span_while_exact is_space w3 (b ++ Z2) H3).
  2: { destruct b as [| c b]; [reflexivity | exact Hbs]. }
  rewrite (span_while_exact not_brace b Z2 Hb eq_refl).
  change (expect (lit "}") Z2) with (Some (w4 ++ t ++ w5 ++ Z3)).
  cbv iota.
  rewrite (spaced_word_spec w4 t w5 Z3 H4 Ht H5 (conj eq_refl eq_refl)).
  change (expect (lit ";") Z3) with (Some rest).
  cbv iota. f_equal. f_equal. unfold Z1, Z2, Z3.
  repeat (progress (rewrite ?length_app; simpl length)). lia.
Qed.

Lemma enum_pattern_parses_enum_witness :
  enum_pattern true
    (lit "enum" ++ lit " " ++ [] ++ [] ++ lit "{" ++ [nl; " "%char]
     ++ lit "RED, GREEN" ++ lit "}" ++ lit " " ++ lit "Color" ++ []
     ++ lit ";" ++ [nl])
  = Some (EnumGroups [] (lit "RED, GREEN") (lit "Color"), 26).
Proof.
  apply (enum_pattern_parses_enum true (lit " ") [] [] [nl; " "%char]
           (lit "RED, GREEN") (lit " ") (lit "Color") [] [nl]);
    repeat split.
Defined.

(** ** The signature-algorithm pattern on a definition as it is written *)

Lemma nonempty_true (x : text) : x <> [] -> nonempty x = true.
Proof. destruct x; [intros H; contradiction H; reflexivity | reflexivity]. Qed.

(** A definition of a signature algorithm is matched when its line ends
    right behind the value, and only then: white space or a carriage return
    behind the value, or anything else that is not the end of the line,
    makes the pattern fail on the whole definition. *)
Theorem sig_alg_pattern_needs_end_of_line
  (bol : bool) (ws1 w ws2 : text) (x : ascii) (h rest : text)
  (Hws : (ws1 <> [] /\ forallb is_space ws1 = true)
         /\ (ws2 <> [] /\ forallb is_space ws2 = true))
  (Hw : is_member w)
  (Hx : x = "x"%char \/ x = "X"%char)
  (Hh : h <> [] /\ forallb is_hex h = true)
  (Hrest : match rest with c :: _ => is_hex c = false | [] => True end) :
  sig_alg_pattern bol
    (lit "#define" ++ ws1 ++ sig_prefix ++ w ++ ws2 ++ "0"%char :: x :: h
     ++ rest)
  = if at_eol rest
    then Some (SigGroups (sig_prefix ++ w) ("0"%char :: x :: h),
               28 + length ws1 + length w + length ws2 + length h)
    else None.
Proof.
  destruct Hws as [[Hn1 Hs1] [Hn2 Hs2]]. destruct Hw as [Hnw Hww].
  destruct Hh as [Hnh Hhh].
  unfold sig_alg_pattern.
  set (Y3 := "0"%char :: x :: h ++ rest).
  set (Y2 := w ++ ws2 ++ Y3).
  change (expect (lit "#define") (lit "#define" ++ ws1 ++ sig_prefix ++ Y2))
    with (Some (ws1 ++ sig_prefix ++ Y2)).
  cbv iota.
  rewrite (span_while_exact is_space ws1 (sig_prefix ++ Y2) Hs1 eq_refl).
  change (expect sig_prefix (sig_prefix ++ Y2)) with (Some Y2).
  cbv iota. unfold Y2.
  rewrite (span_while_exact is_word w (ws2 ++ Y3) Hww).
  2: { destruct ws2 as [| c ws2]; [contradiction Hn2; reflexivity |].
       cbn [forallb] in Hs2. apply andb_prop in Hs2.
       apply space_not_word. apply Hs2. }
  rewrite (span_while_exact is_space ws2 Y3 Hs2 eq_refl).
  unfold Y3. rewrite (span_while_exact is_hex h rest Hhh Hrest).
  rewrite (nonempty_true ws1 Hn1), (nonempty_true w Hnw),
    (nonempty_true ws2 Hn2), (nonempty_true h Hnh).
  assert (Hxb : Ascii.eqb x "x" || Ascii.eqb x "X" = true)
    by (destruct Hx as [-> | ->]; reflexivity).
  rewrite Hxb. cbn [andb Ascii.eqb Bool.eqb].
  destruct (at_eol rest); [| reflexivity].
  f_equal. f_equal.
  repeat (progress (rewrite ?length_app; simpl length)). lia.
Qed.

Lemma sig_alg_pattern_needs_end_of_line_witness :
  sig_alg_pattern true
    (lit "#define" ++ lit " " ++ sig_prefix ++ lit "RSA" ++ lit " "
     ++ "0"%char :: "x"%char :: lit "0401" ++ lit " ")
  = None.
Proof.
  apply (sig_alg_pattern_needs_end_of_line true (lit " ") (lit "RSA")
           (lit " ") "x" (lit "0401") (lit " "));
    repeat split; try discriminate; auto.
Defined.

(** ** A second [#else] in one block *)

(** The scan takes a second [#else] in the same block like the first: it
    scans the branch that ends there and pushes the complement of the
    complement, which has the directive the block was opened with and, for
    [#ifdef] and [#ifndef], its parameter. *)
Theorem second_else_restores_directive
  (classes : list cls) (source : text) (fr : frame) (stack : list frame)
  (m1 m2 : rmatch dgroups)
  (Helse : g_directive (m_groups m1) = Else
           /\ g_directive (m_groups m2) = Else)
  (Hres : result (extract_all classes source (f_end fr) (m_start m1)) = inr tt
          /\ result (extract_all classes source (m_end m1) (m_start m2))
             = inr tt) :
  let fr2 := else_frame (else_frame fr m1) m2 in
  result (scan classes source [m1; m2] (fr :: stack)) = inr (fr2 :: stack)
  /\ f_directive fr2 = f_directive fr
  /\ f_start fr2 = m_start m2
  /\ (f_directive fr <> If -> f_param fr2 = f_param fr)
  /\ (f_directive fr = If ->
      f_param fr2 = lit "!( " ++ (lit "!( " ++ f_param fr ++ lit " )")
                    ++ lit " )").
Proof.
  destruct Helse as [He1 He2]. destruct Hres as [Hr1 Hr2]. intros fr2.
  split.
  - rewrite (scan_else classes source m1 [m2] fr stack He1 Hr1).
    cbn [result].
    assert (Hr2' : result (extract_all classes source
                             (f_end (else_frame fr m1)) (m_start m2))
                   = inr tt).
    { rewrite (proj2 (else_frame_fields fr m1)). exact Hr2. }
    rewrite (scan_else classes source m2 [] (else_frame fr m1) stack He2
               Hr2').
    reflexivity.
  - subst fr2. unfold else_frame. destruct fr as [d p s e].
    cbn [f_directive f_param].
    destruct d; cbn; repeat split; try reflexivity; intros H;
      try discriminate H; try (contradiction H; reflexivity).
Qed.

Lemma second_else_restores_directive_witness :
  let source := lines [lit "#ifdef A"; lit "#else"; lit "#else"] in
  let fr := Frame Ifdef (lit "A") 0 8 in
  let m1 := RMatch 9 14 (DGroups Else []) in
  let m2 := RMatch 15 20 (DGroups Else []) in
  let fr2 := else_frame (else_frame fr m1) m2 in
  result (scan registered source [m1; m2] [fr]) = inr [fr2]
  /\ f_directive fr2 = f_directive fr
  /\ f_start fr2 = m_start m2
  /\ (f_directive fr <> If -> f_param fr2 = f_param fr)
  /\ (f_directive fr = If ->
      f_param fr2 = lit "!( " ++ (lit "!( " ++ f_param fr ++ lit " )")
                    ++ lit " )").
Proof.
  intros source fr m1 m2.
  apply (second_else_restores_directive registered source fr [] m1 m2);
    split; vm_compute; reflexivity.
Defined.
